(** * caffe2.python.scope: name, device and tag scopes

    A shallow embedding of [caffe2/python/scope.py].  The module keeps three
    attributes on one [threading.local()] object and offers four context
    managers written as generators under [contextlib.contextmanager].

    The embedding follows the Python text statement by statement:
    - the thread-local object is a record whose fields are optional, the outer
      [option] telling whether the attribute exists ([hasattr]);
    - [caffe2_pb2.DeviceOption] messages are mutable objects, so they live in a
      heap and are passed around by reference;
    - Python code is a state-and-exception monad [py];
    - a generator with a single [yield] inside [try ... finally] is split into
      the code run before the [yield] and the code run when the generator is
      resumed, either by [next] or by [throw]. *)

From stdpp Require Import base option strings list gmap fin_maps.

Local Open Scope string_scope.

(** ** Exceptions *)

(** The exceptions that occur in the module, and [Exception] for whatever the
    guarded block raises on its own. *)
Inductive exn : Type :=
| AssertionError (msg : string)
| ValueError (msg : string)
| AttributeError (attr : string)
| Exception (what : string).

#[global] Instance exn_eq_dec : EqDecision exn.
Proof. solve_decision. Defined.

(** How a piece of Python code ends: normally with a value, or by raising. *)
Inductive outcome (A : Type) : Type :=
| Normal (a : A)
| Raised (e : exn).
Arguments Normal {A} a.
Arguments Raised {A} e.

(** How a statement list inside a function ends when it does not raise: it
    runs off its end, or it executes [return]. *)
Inductive flow : Type := Fallthrough | Return.

(** Python truthiness of the values the module tests with [if x:] and
    [assert x]. A string is true when it is not empty; [None] is false. *)
Definition truthy (x : option string) : bool :=
  match x with
  | Some s => negb (bool_decide (s = ""))
  | None => false
  end.

(** [s.endswith(suffix)] *)
Fixpoint endswith (s suffix : string) : bool :=
  if bool_decide (s = suffix) then true
  else match s with
       | EmptyString => false
       | String _ s' => endswith s' suffix
       end.

Definition _NAMESCOPE_SEPARATOR : string := "/".

Abbreviation tagmap := (gmap string string).
Abbreviation loc := positive.

Section scope.

(** The device descriptor is a protobuf message declared outside this module
    ([caffe2_pb2.DeviceOption]).  The module reads and writes its optional
    [node_name] field, copies it and compares it; every other field is kept
    as one opaque, comparable component with a default value. *)
Context {Other : Type} `{!EqDecision Other, !Inhabited Other}.

Record DeviceOption : Type := mkDeviceOption {
  node_name : option string;
  other_fields : Other
}.

#[global] Instance DeviceOption_eq_dec : EqDecision DeviceOption.
Proof. solve_decision. Defined.

(** [caffe2_pb2.DeviceOption()]: no field set. *)
Definition DeviceOption_default : DeviceOption :=
  {| node_name := None; other_fields := inhabitant |}.

#[global] Instance DeviceOption_inhabited : Inhabited DeviceOption :=
  populate DeviceOption_default.

(** ** The state: heap of messages and the thread-local object *)

Record state : Type := mkState {
  heap : gmap loc DeviceOption;
  tags : option (option tagmap);
  namescope : option string;
  devicescope : option (option loc)
}.

(** A fresh thread: [_threadlocal_scope = threading.local()] has no
    attribute yet. *)
Definition fresh_thread (h : gmap loc DeviceOption) : state :=
  {| heap := h; tags := None; namescope := None; devicescope := None |}.

Definition py (A : Type) : Type := state → outcome A * state.

Definition ret {A} (a : A) : py A := λ s, (Normal a, s).
Definition raise {A} (e : exn) : py A := λ s, (Raised e, s).
Definition bind {A B} (m : py A) (k : A → py B) : py B := λ s,
  match m s with
  | (Normal a, s') => k a s'
  | (Raised e, s') => (Raised e, s')
  end.

#[global] Instance py_ret : MRet py := @ret.
#[global] Instance py_bind : MBind py := λ A B k m, bind m k.

(** [assert cond, msg] *)
Definition assert (cond : bool) (msg : string) : py unit :=
  if cond then ret tt else raise (AssertionError msg).

(** *** Attribute access on [_threadlocal_scope] *)

Definition setattr_tags (v : option tagmap) : py unit := λ s,
  (Normal tt, {| heap := heap s; tags := Some v;
                 namescope := namescope s; devicescope := devicescope s |}).

Definition setattr_namescope (v : string) : py unit := λ s,
  (Normal tt, {| heap := heap s; tags := tags s;
                 namescope := Some v; devicescope := devicescope s |}).

Definition setattr_devicescope (v : option loc) : py unit := λ s,
  (Normal tt, {| heap := heap s; tags := tags s;
                 namescope := namescope s; devicescope := Some v |}).

(** Reading an attribute that was never assigned raises [AttributeError]. *)
Definition getattr_namescope : py string := λ s,
  match namescope s with
  | Some v => (Normal v, s)
  | None => (Raised (AttributeError "namescope"), s)
  end.

Definition getattr_devicescope : py (option loc) := λ s,
  match devicescope s with
  | Some v => (Normal v, s)
  | None => (Raised (AttributeError "devicescope"), s)
  end.

Definition getattr_tags : py (option tagmap) := λ s,
  match tags s with
  | Some v => (Normal v, s)
  | None => (Raised (AttributeError "tags"), s)
  end.

(** *** Messages on the heap *)

(** [caffe2_pb2.DeviceOption()] *)
Definition new_DeviceOption : py loc := λ s,
  let l := fresh (dom (heap s)) in
  (Normal l, {| heap := <[l := DeviceOption_default]> (heap s); tags := tags s;
                namescope := namescope s; devicescope := devicescope s |}).

(** The message a reference points to. *)
Definition deref (l : loc) : py DeviceOption := λ s, (Normal (heap s !!! l), s).

Definition store (l : loc) (d : DeviceOption) : py unit := λ s,
  (Normal tt, {| heap := <[l := d]> (heap s); tags := tags s;
                 namescope := namescope s; devicescope := devicescope s |}).

(** [dst.CopyFrom(src)] *)
Definition CopyFrom (dst src : loc) : py unit :=
  d ← deref src; store dst d.

(** [msg.node_name = name] *)
Definition set_node_name (l : loc) (name : string) : py unit :=
  d ← deref l;
  store l {| node_name := Some name; other_fields := other_fields d |}.

(** [msg.HasField('node_name')] *)
Definition HasField_node_name (l : loc) : py bool :=
  d ← deref l; ret (bool_decide (is_Some (node_name d))).

(** [msg.node_name]: the field, or the default of a string field. *)
Definition get_node_name (l : loc) : py string :=
  d ← deref l; ret (default "" (node_name d)).

(** [a == b] where [b] is a message and [a] is a message or [None]:
    messages compare by content, and [None] equals no message. *)
Definition message_eq (a : option loc) (b : loc) : py bool :=
  match a with
  | Some l => x ← deref l; y ← deref b; ret (bool_decide (x = y))
  | None => ret false
  end.

(** ** The accessors *)

(** [CurrentTags()] *)
Definition CurrentTags : py (option tagmap) := λ s,
  match tags s with
  | None => (setattr_tags None ;; getattr_tags) s
  | Some _ => getattr_tags s
  end.

(** [CurrentNameScope()] *)
Definition CurrentNameScope : py string := λ s,
  match namescope s with
  | None => (setattr_namescope "" ;; getattr_namescope) s
  | Some _ => getattr_namescope s
  end.

(** [CurrentDeviceScope()] *)
Definition CurrentDeviceScope : py (option loc) := λ s,
  match devicescope s with
  | None => (setattr_devicescope None ;; getattr_devicescope) s
  | Some _ => getattr_devicescope s
  end.

(** ** Generators and the [with] statement *)

(** The [yield] of a generator when it is resumed: [next] lets it go on,
    [throw(e)] raises [e] at the [yield]. *)
Definition resume (thrown : option exn) : py unit :=
  match thrown with
  | None => ret tt
  | Some e => raise e
  end.

(** [try: body finally: fin] as the last statement of a function.  The [fin]
    block always runs.  An exception raised in it replaces a pending one; a
    [return] in it discards a pending one; if it runs off its end, the
    outcome of [body] stands. *)
Definition try_finally (body : py unit) (fin : py flow) : py unit := λ s,
  let '(r, s1) := body s in
  match fin s1 with
  | (Raised e', s2) => (Raised e', s2)
  | (Normal Return, s2) => (Normal tt, s2)
  | (Normal Fallthrough, s2) => (r, s2)
  end.

(** A function decorated with [contextlib.contextmanager] whose generator
    has one [yield].  [gen_enter] runs the generator up to the [yield] and
    keeps its local variables as the frame; [gen_exit] resumes it.  A
    generator that finishes ([Normal tt]) raises [StopIteration]. *)
Record contextmanager : Type := mkContextManager {
  frame : Type;
  gen_enter : py frame;
  gen_exit : frame → option exn → py unit
}.

(** [with cm: block].  [__enter__] calls [next(gen)].  When the block ends
    normally [__exit__] calls [next(gen)] again; when it raises [e],
    [__exit__] calls [gen.throw(e)]: an exception coming out of the
    generator propagates, and a generator that finishes instead makes
    [__exit__] return true, so that [e] is dropped and the program goes on
    after the [with] statement. *)
Definition with_ (cm : contextmanager) (block : py unit) : py unit := λ s,
  match gen_enter cm s with
  | (Raised e, s1) => (Raised e, s1)
  | (Normal fr, s1) =>
      match block s1 with
      | (Normal _, s2) => gen_exit cm fr None s2
      | (Raised e, s2) => gen_exit cm fr (Some e) s2
      end
  end.

(** ** Tags *)

(** The text of the [ValueError] raised on a conflict, as the format string
    of the source builds it (the two string literals are joined without a
    blank between them). *)
Definition conflict_message (key value new_value : string) : string :=
  "Tags conflict detected: key " +:+ key +:+ " hasold value " +:+ value
  +:+ ", then gets a new value " +:+ new_value.

(** The loop [for key, value in old_tags.items()] of [_merge_tags]. *)
Fixpoint merge_items (items : list (string * string)) (merged_new_tags : tagmap)
  : outcome tagmap :=
  match items with
  | [] => Normal merged_new_tags
  | (key, value) :: rest =>
      match merged_new_tags !! key with
      | Some new_value =>
          if bool_decide (value ≠ new_value)
          then Raised (ValueError (conflict_message key value new_value))
          else merge_items rest merged_new_tags
      | None => merge_items rest (<[key := value]> merged_new_tags)
      end
  end.

(** [_merge_tags(old_tags, new_tags)].  [new_tags.copy()] is the value
    [new_tags] itself: maps are values here, and the loop updates the copy
    only.  The items of a dictionary come in the order the map lists them. *)
Definition _merge_tags (old_tags : option tagmap) (new_tags : tagmap)
  : outcome tagmap :=
  let merged_new_tags := new_tags in
  match old_tags with
  | Some old => merge_items (map_to_list old) merged_new_tags
  | None => Normal merged_new_tags
  end.

Definition lift {A} (o : outcome A) : py A := λ s, (o, s).

(** [Tags(new_tags)] up to the [yield]; the frame is [old_tags].  The
    argument is a dictionary by its type, which is what the [isinstance]
    assertion asks. *)
Definition Tags_enter (new_tags : tagmap) : py (option tagmap) :=
  old_tags ← CurrentTags;
  merged_new_tags ← lift (_merge_tags old_tags new_tags);
  setattr_tags (Some merged_new_tags);;
  mret old_tags.

Definition Tags_finally (old_tags : option tagmap) : py flow :=
  setattr_tags old_tags;; mret Fallthrough.

Definition Tags (new_tags : tagmap) : contextmanager :=
  {| gen_enter := Tags_enter new_tags;
     gen_exit := λ old_tags thrown,
       try_finally (resume thrown) (Tags_finally old_tags) |}.

(** ** NameScope *)

Definition namescope_changed_msg : string :=
  "The namescope variable is changed from outside NameScope() calls.".

(** [NameScope(prefix, reset)] up to the [yield]; the frame is
    [(old_scope, prefix)], [prefix] being the local variable after it was
    reassigned.  [prefix] is a string or [None] by its type. *)
Definition NameScope_enter (prefix : option string) (reset : bool)
  : py (string * string) :=
  old_scope ← CurrentNameScope;
  let prefix := if truthy prefix
                then default "" prefix +:+ _NAMESCOPE_SEPARATOR else "" in
  (if reset then setattr_namescope prefix
   else cur ← getattr_namescope; setattr_namescope (cur +:+ prefix));;
  mret (old_scope, prefix).

Definition NameScope_finally (fr : string * string) : py flow :=
  let '(old_scope, prefix) := fr in
  cur ← getattr_namescope;
  assert (endswith cur prefix) namescope_changed_msg;;
  setattr_namescope old_scope;;
  mret Fallthrough.

Definition NameScope (prefix : option string) (reset : bool) : contextmanager :=
  {| gen_enter := NameScope_enter prefix reset;
     gen_exit := λ fr thrown, try_finally (resume thrown) (NameScope_finally fr) |}.

(** ** DeviceScope *)

Definition devicescope_null_msg : string :=
  "At least one argument should be non-null in DeviceScope".
Definition devicescope_changed_msg : string :=
  "The device scope is changed from outside DeviceScope() calls.".

(** [DeviceScope(scope, node_name)] up to the [yield]; the frame is
    [(old_scope, new_scope)].  [scope] is a reference to a message or [None];
    a message is always true in [if scope:], since protobuf messages define
    neither [__bool__] nor [__len__]. *)
Definition DeviceScope_enter (scope : option loc) (name : option string)
  : py (option loc * loc) :=
  new_scope ← new_DeviceOption;
  match scope with
  | Some src => CopyFrom new_scope src
  | None => assert (truthy name) devicescope_null_msg
  end;;
  (if truthy name then set_node_name new_scope (default "" name) else mret tt);;
  old_scope ← CurrentDeviceScope;
  match old_scope with
  | Some old =>
      has_old ← HasField_node_name old;
      has_new ← HasField_node_name new_scope;
      if has_old && negb has_new
      then inherited ← get_node_name old; set_node_name new_scope inherited
      else mret tt
  | None => mret tt
  end;;
  setattr_devicescope (Some new_scope);;
  mret (old_scope, new_scope).

Definition DeviceScope_finally (fr : option loc * loc) : py flow :=
  let '(old_scope, new_scope) := fr in
  cur ← getattr_devicescope;
  same ← message_eq cur new_scope;
  assert same devicescope_changed_msg;;
  setattr_devicescope old_scope;;
  mret Fallthrough.

Definition DeviceScope (scope : option loc) (name : option string)
  : contextmanager :=
  {| gen_enter := DeviceScope_enter scope name;
     gen_exit := λ fr thrown, try_finally (resume thrown) (DeviceScope_finally fr) |}.

(** ** EmptyDeviceScope *)

(** Up to the [yield]; the frame is [old_scope].  The assignment already
    stands inside the [try], and it cannot raise. *)
Definition EmptyDeviceScope_enter : py (option loc) :=
  old_scope ← CurrentDeviceScope;
  setattr_devicescope None;;
  mret old_scope.

(** The [finally] block ends in [return]. *)
Definition EmptyDeviceScope_finally (old_scope : option loc) : py flow :=
  setattr_devicescope old_scope;; mret Return.

Definition EmptyDeviceScope : contextmanager :=
  {| gen_enter := EmptyDeviceScope_enter;
     gen_exit := λ old_scope thrown,
       try_finally (resume thrown) (EmptyDeviceScope_finally old_scope) |}.

(** The guards of the module. *)
Inductive guard : contextmanager → Prop :=
| guard_NameScope prefix reset : guard (NameScope prefix reset)
| guard_DeviceScope scope name : guard (DeviceScope scope name)
| guard_EmptyDeviceScope : guard EmptyDeviceScope
| guard_Tags new_tags : guard (Tags new_tags).

(** What the accessors return in a state, without their lazy
    initialisation. *)
Definition current_tags (s : state) : option tagmap := default None (tags s).
Definition current_namescope (s : state) : string := default "" (namescope s).
Definition current_devicescope (s : state) : option loc :=
  default None (devicescope s).

(** ** Vocabulary of the properties *)

(** The test of the assertion that ends [NameScope]. *)
Definition namescope_intact (fr : string * string) (s : state) : bool :=
  endswith (current_namescope s) fr.2.

(** The test of the assertion that ends [DeviceScope]. *)
Definition devicescope_intact (fr : option loc * loc) (s : state) : bool :=
  match current_devicescope s with
  | Some l => bool_decide (heap s !!! l = heap s !!! fr.2)
  | None => false
  end.

(** The message [DeviceScope] installs, computed in the three steps of the
    source from the heap [h] at entry and the fresh reference [l]: the copy
    of the argument, the node name given, the node name inherited. *)
Definition copied_message (h : gmap loc DeviceOption) (l : loc)
    (scope : option loc) : DeviceOption :=
  match scope with
  | Some src => <[l := DeviceOption_default]> h !!! src
  | None => DeviceOption_default
  end.

Definition named_message (d : DeviceOption) (name : option string)
  : DeviceOption :=
  if truthy name
  then {| node_name := Some (default "" name); other_fields := other_fields d |}
  else d.

Definition inherited_message (h : gmap loc DeviceOption) (l : loc)
    (d : DeviceOption) (old_scope : option loc) : DeviceOption :=
  match old_scope with
  | Some old =>
      let od := <[l := d]> h !!! old in
      if bool_decide (is_Some (node_name od))
         && negb (bool_decide (is_Some (node_name d)))
      then {| node_name := Some (default "" (node_name od));
              other_fields := other_fields d |}
      else d
  | None => d
  end.

Definition installed_message (s : state) (scope : option loc)
    (name : option string) : DeviceOption :=
  let l := fresh (dom (heap s)) in
  inherited_message (heap s) l
    (named_message (copied_message (heap s) l scope) name)
    (current_devicescope s).

(** The descriptor that is current in a state, if there is one. *)
Definition installed (s : state) : option DeviceOption :=
  current_devicescope s ≫= λ l, heap s !! l.

(** Two mappings agree when no key has different values in them. *)
Definition agree (old new : tagmap) : Prop :=
  ∀ k v v', old !! k = Some v → new !! k = Some v' → v = v'.

#[global] Instance agree_dec (old new : tagmap) : Decision (agree old new).
Proof.
  destruct (decide (map_Forall
    (λ k v, new !! k = None ∨ new !! k = Some v) old)) as [Hyes|Hno];
    [left|right]; unfold agree.
  - intros k v v' Hold Hnew.
    destruct (Hyes k v Hold) as [Hk|Hk]; rewrite Hk in Hnew; congruence.
  - intros Hagree. apply Hno. intros k v Hold.
    destruct (new !! k) as [v'|] eqn:Hnew; [right|by left].
    f_equal. symmetry. by eapply Hagree.
Defined.

(** A key on which two mappings differ. *)
Definition conflict (old new : tagmap) (k v v' : string) : Prop :=
  old !! k = Some v ∧ new !! k = Some v' ∧ v ≠ v'.

(** The exception to throw into the generator after the block ended with
    outcome [r]. *)
Definition pending (r : outcome unit) : option exn :=
  match r with
  | Normal _ => None
  | Raised e => Some e
  end.

(** The local variable [prefix] after its reassignment. *)
Definition segment (prefix : option string) : string :=
  if truthy prefix then default "" prefix +:+ _NAMESCOPE_SEPARATOR else "".

(** The three attributes, and the guard that owns each. *)
Inductive slot : Type := name_slot | device_slot | tags_slot.

Inductive guards : contextmanager → slot → Prop :=
| guards_name prefix reset : guards (NameScope prefix reset) name_slot
| guards_device scope name : guards (DeviceScope scope name) device_slot
| guards_tags new_tags : guards (Tags new_tags) tags_slot.

(** The attribute holds in [s'] what it holds in [s]. *)
Definition unwritten (k : slot) (s s' : state) : Prop :=
  match k with
  | name_slot => namescope s' = namescope s
  | device_slot => devicescope s' = devicescope s
  | tags_slot => tags s' = tags s
  end.

(** The attribute exists in [s]. *)
Definition present (k : slot) (s : state) : Prop :=
  match k with
  | name_slot => is_Some (namescope s)
  | device_slot => is_Some (devicescope s)
  | tags_slot => is_Some (tags s)
  end.

(** The attribute holds in [s'] the value that was current in [s]. *)
Definition restored (k : slot) (s s' : state) : Prop :=
  match k with
  | name_slot => namescope s' = Some (current_namescope s)
  | device_slot => devicescope s' = Some (current_devicescope s)
  | tags_slot => tags s' = Some (current_tags s)
  end.

Definition prefix_ok (p : string) : Prop :=
  p = "" ∨ endswith p _NAMESCOPE_SEPARATOR = true.

Definition namescope_ok (s : state) : Prop := prefix_ok (current_namescope s).

(** ** States and blocks for the examples *)

(** A thread inside [NameScope]s that made [p] the prefix. *)
Definition named_state (p : string) : state :=
  {| heap := ∅; tags := None; namescope := Some p; devicescope := None |}.

(** A thread inside [Tags(t)]. *)
Definition tagged_state (t : tagmap) : state :=
  {| heap := ∅; tags := Some (Some t); namescope := None;
     devicescope := None |}.

(** A thread that holds one message, with no node name, and is in no device
    scope, as in [testDevicescopeBasic]. *)
Definition device_state (x : Other) : state :=
  {| heap := {[1%positive := mkDeviceOption None x]}; tags := None;
     namescope := None; devicescope := None |}.

(** A thread inside the device scope of message 1, whose node name is
    ["node0"]; message 2 has no node name and message 3 has ["node3"]. *)
Definition nested_state (x y : Other) : state :=
  {| heap := {[1%positive := mkDeviceOption (Some "node0") x;
               2%positive := mkDeviceOption None y;
               3%positive := mkDeviceOption (Some "node3") y]};
     tags := None; namescope := None;
     devicescope := Some (Some 1%positive) |}.

(** [try: body except Exception: pass] *)
Definition try_except_pass (body : py unit) : py unit := λ s,
  match body s with
  | (Normal _, s') => (Normal tt, s')
  | (Raised _, s') => (Normal tt, s')
  end.

(** [self.assertEquals(actual, expected)] of the tests. *)
Definition assertEquals {A} `{!EqDecision A} (actual : py A) (expected : A)
  : py unit :=
  a ← actual; assert (bool_decide (a = expected)) "assertEquals".

(** [self.assertEquals(scope.CurrentDeviceScope(), dsc)], which compares
    messages by content. *)
Definition assertDeviceEquals (dsc : loc) : py unit :=
  cur ← CurrentDeviceScope; same ← message_eq cur dsc;
  assert same "assertEquals".

(** A block that assigns the attributes directly. *)
Definition corrupt_namescope (v : string) : py unit := setattr_namescope v.
Definition corrupt_devicescope (v : option loc) : py unit :=
  setattr_devicescope v.

(** ** Vocabulary of the further properties *)

(** The state [s] with one attribute assigned. *)
Definition put_namescope (v : string) (s : state) : state :=
  {| heap := heap s; tags := tags s; namescope := Some v;
     devicescope := devicescope s |}.
Definition put_devicescope (v : option loc) (s : state) : state :=
  {| heap := heap s; tags := tags s; namescope := namescope s;
     devicescope := Some v |}.
Definition put_tags (v : option tagmap) (s : state) : state :=
  {| heap := heap s; tags := Some v; namescope := namescope s;
     devicescope := devicescope s |}.

(** The guard that writes each attribute; [EmptyDeviceScope] writes
    [devicescope] too. *)
Inductive owns : contextmanager → slot → Prop :=
| owns_name prefix reset : owns (NameScope prefix reset) name_slot
| owns_device scope name : owns (DeviceScope scope name) device_slot
| owns_empty : owns EmptyDeviceScope device_slot
| owns_tags new_tags : owns (Tags new_tags) tags_slot.

(** The attributes other than [k] hold in [s'] what they hold in [s]. *)
Definition others_kept (k : slot) (s s' : state) : Prop :=
  match k with
  | name_slot => tags s' = tags s ∧ devicescope s' = devicescope s
  | device_slot => tags s' = tags s ∧ namescope s' = namescope s
  | tags_slot => namescope s' = namescope s ∧ devicescope s' = devicescope s
  end.

(** [with NameScope(p1): with NameScope(p2): ... block] *)
Fixpoint nested_NameScope (prefixes : list string) (block : py unit)
  : py unit :=
  match prefixes with
  | [] => block
  | p :: rest =>
      with_ (NameScope (Some p) false) (nested_NameScope rest block)
  end.

(** The segments of a list of prefixes, joined. *)
Fixpoint path (prefixes : list string) : string :=
  match prefixes with
  | [] => ""
  | p :: rest => segment (Some p) +:+ path rest
  end.

(** [scope.CurrentDeviceScope().node_name = name], for a block that writes
    to the message of the current scope in place. *)
Definition rename_current_device (name : string) : py unit :=
  cur ← CurrentDeviceScope;
  match cur with
  | Some l => set_node_name l name
  | None => raise (AttributeError "node_name")
  end.

(** A block that assigns the [tags] attribute directly. *)
Definition corrupt_tags (v : option tagmap) : py unit := setattr_tags v.

(** The last of [src :: rest]. *)
Fixpoint last_scope (src : loc) (rest : list loc) : loc :=
  match rest with
  | [] => src
  | src' :: rest' => last_scope src' rest'
  end.

(** Entering [DeviceScope(d1)], inside it [DeviceScope(d2)], and so on,
    each with a descriptor and no node name. *)
Fixpoint enter_DeviceScopes (scopes : list loc) : py unit :=
  match scopes with
  | [] => mret tt
  | src :: rest =>
      DeviceScope_enter (Some src) None;; enter_DeviceScopes rest
  end.

(** Entering [Tags(a)] and then [Tags(b)], and reading the tags. *)
Definition enter_two_tags (a b : tagmap) : py (option tagmap) :=
  Tags_enter a;; Tags_enter b;; CurrentTags.

(** * Properties *)

Ltac py_unfold :=
  unfold assert, resume, try_finally, lift in *;
  unfold mbind, py_bind, bind, mret, py_ret, ret, raise in *.

(** The accessors return the current value and leave it current. *)
Lemma CurrentNameScope_spec s :
  ∃ s', CurrentNameScope s = (Normal (current_namescope s), s')
        ∧ namescope s' = Some (current_namescope s)
        ∧ heap s' = heap s ∧ tags s' = tags s ∧ devicescope s' = devicescope s.
Proof.
  unfold CurrentNameScope, current_namescope, getattr_namescope,
    setattr_namescope. py_unfold.
  destruct s as [h t [n|] d]; simpl; eauto 10.
Qed.

Lemma CurrentDeviceScope_spec s :
  ∃ s', CurrentDeviceScope s = (Normal (current_devicescope s), s')
        ∧ devicescope s' = Some (current_devicescope s)
        ∧ heap s' = heap s ∧ tags s' = tags s ∧ namescope s' = namescope s.
Proof.
  unfold CurrentDeviceScope, current_devicescope, getattr_devicescope,
    setattr_devicescope. py_unfold.
  destruct s as [h t n [d|]]; simpl; eauto 10.
Qed.

Lemma CurrentTags_spec s :
  ∃ s', CurrentTags s = (Normal (current_tags s), s')
        ∧ tags s' = Some (current_tags s)
        ∧ heap s' = heap s ∧ namescope s' = namescope s
        ∧ devicescope s' = devicescope s.
Proof.
  unfold CurrentTags, current_tags, getattr_tags, setattr_tags. py_unfold.
  destruct s as [h [t|] n d]; simpl; eauto 10.
Qed.

(** C1 (the claim: under every guard, Name Scope, Device Scope, Empty Device
    Scope and Tags, an error raised inside the guarded block is followed by
    the restore of the captured value and then propagates to the caller; no
    guard suppresses it).  [EmptyDeviceScope] does not behave so: its
    [finally] block ends in [return], hence whatever the block raises, the
    [with] statement ends normally.  The captured device scope is restored,
    but no error ever leaves the statement. *)
Theorem EmptyDeviceScope_swallows_exception :
  ∀ (block : py unit) (s : state),
    (with_ EmptyDeviceScope block s).1 = Normal tt
    ∧ current_devicescope (with_ EmptyDeviceScope block s).2
      = current_devicescope s.
Proof.
  intros block s. unfold with_, EmptyDeviceScope; simpl.
  unfold EmptyDeviceScope_enter, EmptyDeviceScope_finally. py_unfold.
  destruct (CurrentDeviceScope_spec s) as (s' & -> & _); simpl.
  destruct (block _) as [[[]|e] s2]; simpl; auto.
Qed.

(** ** The [finally] blocks *)

Lemma NameScope_finally_spec fr s :
  NameScope_finally fr s =
    match namescope s with
    | None => (Raised (AttributeError "namescope"), s)
    | Some _ =>
        if namescope_intact fr s
        then (Normal Fallthrough,
              {| heap := heap s; tags := tags s; namescope := Some fr.1;
                 devicescope := devicescope s |})
        else (Raised (AssertionError namescope_changed_msg), s)
    end.
Proof.
  unfold NameScope_finally, namescope_intact, current_namescope,
    getattr_namescope, setattr_namescope.
  destruct fr as [old_scope prefix]. py_unfold.
  destruct (namescope s) as [cur|]; simpl; [|done].
  destruct (endswith cur prefix); done.
Qed.

Lemma DeviceScope_finally_spec fr s :
  DeviceScope_finally fr s =
    match devicescope s with
    | None => (Raised (AttributeError "devicescope"), s)
    | Some _ =>
        if devicescope_intact fr s
        then (Normal Fallthrough,
              {| heap := heap s; tags := tags s; namescope := namescope s;
                 devicescope := Some fr.1 |})
        else (Raised (AssertionError devicescope_changed_msg), s)
    end.
Proof.
  unfold DeviceScope_finally, devicescope_intact, current_devicescope,
    getattr_devicescope, setattr_devicescope, message_eq, deref.
  destruct fr as [old_scope new_scope]. py_unfold.
  destruct (devicescope s) as [[cur|]|]; simpl; [|done..].
  destruct (bool_decide _); done.
Qed.

Lemma Tags_finally_spec old_tags s :
  Tags_finally old_tags s =
    (Normal Fallthrough,
     {| heap := heap s; tags := Some old_tags; namescope := namescope s;
        devicescope := devicescope s |}).
Proof. reflexivity. Qed.

Lemma EmptyDeviceScope_finally_spec old_scope s :
  EmptyDeviceScope_finally old_scope s =
    (Normal Return,
     {| heap := heap s; tags := tags s; namescope := namescope s;
        devicescope := Some old_scope |}).
Proof. reflexivity. Qed.

(** [try: yield finally: fin], resumed with [thrown], once the outcome of
    [fin] is known. *)
Lemma try_finally_resume thrown fin s :
  try_finally (resume thrown) fin s =
    match fin s with
    | (Raised e', s') => (Raised e', s')
    | (Normal Return, s') => (Normal tt, s')
    | (Normal Fallthrough, s') =>
        (match thrown with Some e => Raised e | None => Normal tt end, s')
    end.
Proof. py_unfold. destruct thrown; reflexivity. Qed.

(** ** DeviceScope: entry *)

Lemma truthy_false name : truthy name = false ↔ name = None ∨ name = Some "".
Proof.
  destruct name as [n|]; simpl.
  - rewrite negb_false_iff, bool_decide_eq_true. split.
    + intros ->. by right.
    + by intros [[=]|[= ->]].
  - split; [by left|done].
Qed.

Lemma truthy_true name :
  truthy name = true ↔ ∃ n, name = Some n ∧ n ≠ "".
Proof.
  destruct name as [n|]; simpl.
  - rewrite negb_true_iff, bool_decide_eq_false. split.
    + intros Hn. by exists n.
    + by intros (? & [= <-] & ?).
  - split; [done|]. by intros (? & [=] & _).
Qed.

Lemma DeviceScope_enter_raises name s :
  truthy name = false →
  DeviceScope_enter None name s =
    (Raised (AssertionError devicescope_null_msg),
     {| heap := <[fresh (dom (heap s)) := DeviceOption_default]> (heap s);
        tags := tags s; namescope := namescope s;
        devicescope := devicescope s |}).
Proof.
  intros Hname. unfold DeviceScope_enter, new_DeviceOption. py_unfold.
  rewrite Hname. reflexivity.
Qed.

Lemma DeviceScope_enter_installs scope name s :
  is_Some scope ∨ truthy name = true →
  DeviceScope_enter scope name s =
    (Normal (current_devicescope s, fresh (dom (heap s))),
     {| heap := <[fresh (dom (heap s)) := installed_message s scope name]> (heap s);
        tags := tags s; namescope := namescope s;
        devicescope := Some (Some (fresh (dom (heap s)))) |}).
Proof.
  intros Hargs.
  unfold DeviceScope_enter, installed_message, new_DeviceOption, CopyFrom,
    set_node_name, HasField_node_name, get_node_name, deref, store.
  unfold CurrentDeviceScope, getattr_devicescope, setattr_devicescope,
    current_devicescope, inherited_message, named_message, copied_message.
  py_unfold.
  set (l := fresh (dom (heap s))).
  destruct s as [h t n d]; simpl in *.
  destruct scope as [src|], (truthy name) eqn:Hn;
    try (destruct Hargs as [[? [=]]|[=]]; fail);
    destruct d as [[old|]|]; cbn;
    rewrite ?insert_insert_eq, ?lookup_total_insert_eq; cbn;
    try reflexivity.
  all: repeat match goal with
       | |- context [if ?c then _ else _] => destruct c eqn:?; cbn
       end; rewrite ?insert_insert_eq, ?lookup_total_insert_eq; try reflexivity.
Qed.

(** A reference that is in the heap is not the one [new_DeviceOption]
    returns, and it still points to the same message afterwards. *)
Lemma fresh_ne (h : gmap loc DeviceOption) l d :
  h !! l = Some d → l ≠ fresh (dom h).
Proof.
  intros Hl ->. apply (is_fresh (dom h)). apply elem_of_dom. eauto.
Qed.

Lemma fresh_None (h : gmap loc DeviceOption) : h !! fresh (dom h) = None.
Proof. apply not_elem_of_dom, is_fresh. Qed.

Lemma lookup_total_other (h : gmap loc DeviceOption) l d x :
  h !! l = Some d → <[fresh (dom h) := x]> h !!! l = d.
Proof.
  intros Hl. rewrite lookup_total_insert_ne by (symmetry; eauto using fresh_ne).
  by apply lookup_total_correct.
Qed.

(** C2, as amended: entering [DeviceScope] fails, with the assertion error on
    its arguments, exactly when no descriptor is passed and the node name is
    absent or the empty string; it fails in no other way, and with a
    descriptor, whatever it holds and whatever the node name, it succeeds. *)
Theorem DeviceScope_argument_error :
  ∀ (scope : option loc) (name : option string) (s : state),
    let r := (gen_enter (DeviceScope scope name) s).1 in
    (r = Raised (AssertionError devicescope_null_msg)
       ↔ scope = None ∧ (name = None ∨ name = Some ""))
    ∧ ((∃ e, r = Raised e) ↔ scope = None ∧ (name = None ∨ name = Some ""))
    ∧ (∀ src, ∃ fr, (gen_enter (DeviceScope (Some src) name) s).1 = Normal fr).
Proof.
  intros scope name s; simpl.
  assert (Hok : ∀ sc, is_Some sc ∨ truthy name = true →
            ∃ fr, (DeviceScope_enter sc name s).1 = Normal fr).
  { intros sc H. rewrite (DeviceScope_enter_installs _ _ _ H). simpl. eauto. }
  assert (Hcases : (scope = None ∧ (name = None ∨ name = Some ""))
                   ∨ (is_Some scope ∨ truthy name = true)).
  { destruct scope; [right; left; eauto|].
    destruct (truthy name) eqn:Hn; [by right; right|].
    left. split; [done|]. by apply truthy_false. }
  split_and!.
  - split.
    + intros Hr. destruct Hcases as [?|H]; [done|].
      destruct (Hok _ H) as [fr Hfr]. congruence.
    + intros [-> Hn]. apply truthy_false in Hn.
      by rewrite DeviceScope_enter_raises.
  - split.
    + intros [e Hr]. destruct Hcases as [?|H]; [done|].
      destruct (Hok _ H) as [fr Hfr]. congruence.
    + intros [-> Hn]. apply truthy_false in Hn.
      rewrite DeviceScope_enter_raises by done. simpl. eauto.
  - intros src. apply Hok. left. eauto.
Qed.

(** C3, as amended: inside an enclosing device scope whose node name is set
    to [N], a successful entry installs a descriptor whose node name is
    - the [node_name] argument when that is a non-empty string, whatever the
      descriptor passed carries;
    - otherwise (argument absent or empty) the node name of the descriptor
      passed, when it carries one;
    - otherwise [N], inherited from the enclosing scope. *)
Theorem DeviceScope_node_name :
  ∀ (s : state) (old : loc) (od : DeviceOption) (N : string)
    (scope : option loc) (name : option string) fr (s1 : state),
    current_devicescope s = Some old →
    heap s !! old = Some od →
    node_name od = Some N →
    gen_enter (DeviceScope scope name) s = (Normal fr, s1) →
    ∃ d', installed s1 = Some d'
      ∧ (∀ n, name = Some n → n ≠ "" → node_name d' = Some n)
      ∧ (∀ src d m, name = None ∨ name = Some "" →
           scope = Some src → heap s !! src = Some d →
           node_name d = Some m → node_name d' = Some m)
      ∧ (∀ src d, name = None ∨ name = Some "" →
           scope = Some src → heap s !! src = Some d →
           node_name d = None → node_name d' = Some N).
Proof.
  intros s old od N scope name fr s1 Hold Hod HN Henter. simpl in Henter.
  assert (Hargs : is_Some scope ∨ truthy name = true).
  { destruct scope; [left; eauto|]. destruct (truthy name) eqn:Hn; [by right|].
    rewrite DeviceScope_enter_raises in Henter by done. discriminate. }
  rewrite (DeviceScope_enter_installs _ _ _ Hargs) in Henter.
  injection Henter as <- <-.
  exists (installed_message s scope name). split.
  { unfold installed, current_devicescope. simpl. apply lookup_insert_eq. }
  unfold installed_message, inherited_message. rewrite Hold.
  rewrite (lookup_total_other _ _ _ _ Hod), HN. simpl.
  unfold named_message. split_and!.
  - intros n -> Hn.
    assert (truthy (Some n) = true) as -> by (apply truthy_true; eauto).
    simpl. done.
  - intros src d m Hn -> Hd Hm. apply truthy_false in Hn. rewrite Hn.
    unfold copied_message. rewrite (lookup_total_other _ _ _ _ Hd), Hm.
    simpl. done.
  - intros src d Hn -> Hd Hm. apply truthy_false in Hn. rewrite Hn.
    unfold copied_message. rewrite (lookup_total_other _ _ _ _ Hd), Hm.
    simpl. done.
Qed.


(** ** Tags: the merge *)

Lemma merge_items_agree items merged :
  NoDup items.*1 →
  (∀ k v v', (k, v) ∈ items → merged !! k = Some v' → v = v') →
  merge_items items merged = Normal (merged ∪ list_to_map items).
Proof.
  revert merged. induction items as [|[key value] rest IH];
    intros merged Hnd Hag; simpl.
  - by rewrite (right_id_L ∅ (∪)).
  - apply NoDup_cons in Hnd as [Hkey Hnd].
    destruct (merged !! key) as [new_value|] eqn:Hm.
    + rewrite bool_decide_eq_false_2.
      2:{ intros Hne. apply Hne. eapply Hag; [left|done]. }
      rewrite IH; [|done|].
      2:{ intros k v v' Hin. apply Hag. by right. }
      f_equal. apply map_eq. intros k.
      rewrite !lookup_union. destruct (decide (k = key)) as [->|Hk].
      * rewrite Hm, lookup_insert_eq.
        assert (value = new_value) as -> by (eapply Hag; [left|done]).
        by destruct (list_to_map rest !! key).
      * by rewrite lookup_insert_ne.
    + rewrite IH; [|done|].
      2:{ intros k v v' Hin Hk. apply (Hag k); [by right|].
          rewrite lookup_insert_ne in Hk; [done|].
          intros <-. apply Hkey. apply list_elem_of_fmap. by exists (key, v). }
      f_equal. apply map_eq. intros k.
      rewrite !lookup_union. destruct (decide (k = key)) as [->|Hk].
      * rewrite Hm, !lookup_insert_eq.
        by destruct (list_to_map rest !! key).
      * by rewrite !lookup_insert_ne.
Qed.

Lemma merge_items_conflict items merged :
  NoDup items.*1 →
  (∃ k v v', (k, v) ∈ items ∧ merged !! k = Some v' ∧ v ≠ v') →
  ∃ k v v', (k, v) ∈ items ∧ merged !! k = Some v' ∧ v ≠ v'
    ∧ merge_items items merged = Raised (ValueError (conflict_message k v v')).
Proof.
  revert merged. induction items as [|[key value] rest IH];
    intros merged Hnd (k & v & v' & Hin & Hk & Hne); simpl.
  - by apply elem_of_nil in Hin.
  - apply NoDup_cons in Hnd as [Hkey Hnd].
    assert (Hrest : ∀ k0 v0, (k0, v0) ∈ rest → k0 ≠ key).
    { intros k0 v0 Hin0 ->. apply Hkey, list_elem_of_fmap. by exists (key, v0). }
    destruct (merged !! key) as [new_value|] eqn:Hm.
    + destruct (decide (value = new_value)) as [->|Hvalue].
      * rewrite bool_decide_eq_false_2 by (intros H; by apply H).
        apply elem_of_cons in Hin as [[= -> ->]|Hin]; [congruence|].
        destruct (IH merged Hnd) as (k1 & v1 & v1' & ? & ? & ? & ?); [by eauto 10|].
        exists k1, v1, v1'. split_and!; try done. by right.
      * rewrite bool_decide_eq_true_2 by done.
        exists key, value, new_value. split_and!; try done. by left.
    + apply elem_of_cons in Hin as [[= -> ->]|Hin]; [congruence|].
      destruct (IH (<[key:=value]> merged) Hnd) as (k1 & v1 & v1' & ? & Hk1 & ? & ?).
      { exists k, v, v'. split_and!; try done.
        rewrite lookup_insert_ne; [done|]. intros <-. by eapply Hrest. }
      exists k1, v1, v1'. split_and!; try done; [by right|].
      rewrite lookup_insert_ne in Hk1; [done|]. intros <-. by eapply Hrest.
Qed.

Lemma merge_items_raised items merged e :
  NoDup items.*1 →
  merge_items items merged = Raised e →
  ∃ k v v', (k, v) ∈ items ∧ merged !! k = Some v' ∧ v ≠ v'
    ∧ e = ValueError (conflict_message k v v').
Proof.
  revert merged. induction items as [|[key value] rest IH];
    intros merged Hnd Hr; simpl in Hr; [done|].
  apply NoDup_cons in Hnd as [Hkey Hnd].
  destruct (merged !! key) as [new_value|] eqn:Hm.
  - case_bool_decide as Hne.
    + injection Hr as <-. exists key, value, new_value.
      split_and!; try done. by left.
    + destruct (IH _ Hnd Hr) as (k & v & v' & ? & ? & ? & ?).
      exists k, v, v'. split_and!; try done. by right.
  - destruct (IH _ Hnd Hr) as (k & v & v' & Hin & Hk & ? & ?).
    exists k, v, v'. split_and!; try done; [by right|].
    rewrite lookup_insert_ne in Hk; [done|].
    intros <-. apply Hkey, list_elem_of_fmap. by exists (key, v).
Qed.

Lemma _merge_tags_agree old_tags new_tags :
  agree (default ∅ old_tags) new_tags →
  _merge_tags old_tags new_tags = Normal (new_tags ∪ default ∅ old_tags).
Proof.
  intros Hag. destruct old_tags as [old|]; simpl in *.
  - rewrite merge_items_agree.
    + by rewrite list_to_map_to_list.
    + apply NoDup_fst_map_to_list.
    + intros k v v' Hin%elem_of_map_to_list Hk. eauto.
  - by rewrite (right_id_L ∅ (∪)).
Qed.

Lemma _merge_tags_conflict old_tags new_tags :
  (∃ k v v', conflict (default ∅ old_tags) new_tags k v v') →
  ∃ k v v', conflict (default ∅ old_tags) new_tags k v v'
    ∧ _merge_tags old_tags new_tags
      = Raised (ValueError (conflict_message k v v')).
Proof.
  intros (k & v & v' & Hold & Hnew & Hne).
  destruct old_tags as [old|]; simpl in *; [|by rewrite lookup_empty in Hold].
  destruct (merge_items_conflict (map_to_list old) new_tags)
    as (k1 & v1 & v1' & Hin & ? & ? & ?).
  - apply NoDup_fst_map_to_list.
  - exists k, v, v'. by rewrite elem_of_map_to_list.
  - exists k1, v1, v1'. apply elem_of_map_to_list in Hin. by repeat split.
Qed.

Lemma _merge_tags_raised old_tags new_tags e :
  _merge_tags old_tags new_tags = Raised e →
  ∃ old k v v', old_tags = Some old ∧ conflict old new_tags k v v'
    ∧ e = ValueError (conflict_message k v v').
Proof.
  destruct old_tags as [old|]; simpl; [|done]. intros Hr.
  apply merge_items_raised in Hr as (k & v & v' & Hin & ? & ? & ?);
    [|apply NoDup_fst_map_to_list].
  apply elem_of_map_to_list in Hin. exists old, k, v, v'. by repeat split.
Qed.

Lemma Tags_enter_spec new_tags s :
  Tags_enter new_tags s =
    match _merge_tags (current_tags s) new_tags with
    | Normal merged =>
        (Normal (current_tags s),
         {| heap := heap s; tags := Some (Some merged);
            namescope := namescope s; devicescope := devicescope s |})
    | Raised e =>
        (Raised e,
         {| heap := heap s; tags := Some (current_tags s);
            namescope := namescope s; devicescope := devicescope s |})
    end.
Proof.
  unfold Tags_enter, CurrentTags, current_tags, getattr_tags, setattr_tags.
  py_unfold.
  destruct s as [h [t|] n d]; simpl;
    [destruct (_merge_tags t new_tags)|destruct (_merge_tags None new_tags)];
    reflexivity.
Qed.

(** C4: entering [Tags] when the enclosing tags (an empty mapping when there
    are none) and the new tags agree on every key they share, which
    includes the case that they share none, installs the union of the two
    mappings, where a key has the value it has in either of them; and when
    they differ on some key, entering raises the [ValueError] whose text
    names such a key, its value in the enclosing tags and its value in the
    new tags, in that order: the text is
    ["Tags conflict detected: key K hasold value V, then gets a new value W"]
    with [K] a key on which the mappings differ, [V] its value in the
    enclosing tags and [W] its value in the new tags. *)
Theorem Tags_enter_merges :
  ∀ (new_tags : tagmap) (s : state),
    let old := default ∅ (current_tags s) in
    (agree old new_tags →
       ∃ s1, gen_enter (Tags new_tags) s = (Normal (current_tags s), s1)
         ∧ tags s1 = Some (Some (new_tags ∪ old))
         ∧ ∀ k v, (new_tags ∪ old) !! k = Some v
                  ↔ new_tags !! k = Some v ∨ old !! k = Some v)
    ∧ ((∃ k v v', conflict old new_tags k v v') →
       ∃ k v v' s1, conflict old new_tags k v v'
         ∧ gen_enter (Tags new_tags) s
           = (Raised (ValueError
                ("Tags conflict detected: key " +:+ k +:+ " hasold value "
                 +:+ v +:+ ", then gets a new value " +:+ v')), s1)).
Proof.
  intros new_tags s old. simpl. rewrite Tags_enter_spec. split.
  - intros Hag. rewrite _merge_tags_agree by done.
    eexists. split_and!; [done..|].
    intros k v. rewrite lookup_union_Some_raw. split.
    { intros [?|[_ ?]]; [by left|by right]. }
    intros [Hn|Ho]; [by left|].
    destruct (new_tags !! k) as [v'|] eqn:Hk; [|by right].
    left. f_equal. symmetry. by eapply Hag.
  - intros Hc. destruct (_merge_tags_conflict _ _ Hc) as (k & v & v' & ? & ->).
    exists k, v, v'. eexists. by split.
Qed.

(** C5: when entering [Tags] raises, which it does on a conflict only, the
    state is the one before the call: the merged mapping is not installed,
    the current tags are the enclosing ones, and the guarded block does not
    run. *)
Theorem Tags_conflict_leaves_tags :
  ∀ (new_tags : tagmap) (s : state) (e : exn) (s1 : state),
    gen_enter (Tags new_tags) s = (Raised e, s1) →
    s1 = s
    ∧ current_tags s1 = current_tags s
    ∧ (∃ old k v v', current_tags s = Some old ∧ conflict old new_tags k v v'
         ∧ e = ValueError (conflict_message k v v'))
    ∧ ∀ block, with_ (Tags new_tags) block s = (Raised e, s).
Proof.
  intros new_tags s e s1 Henter.
  assert (Hs : s1 = s ∧ ∃ old k v v', current_tags s = Some old
                 ∧ conflict old new_tags k v v'
                 ∧ e = ValueError (conflict_message k v v')).
  { simpl in Henter. rewrite Tags_enter_spec in Henter.
    destruct (_merge_tags _ _) as [|e'] eqn:Hm; [done|].
    injection Henter as <- <-.
    apply _merge_tags_raised in Hm as (old & k & v & v' & Hold & ? & ?).
    split; [|by eauto 10].
    unfold current_tags in *. destruct s as [h [t|] n d]; simpl in *; [done|].
    discriminate. }
  destruct Hs as [-> Hc]. split_and!; try done.
  intros block. unfold with_. by rewrite Henter.
Qed.

(** ** Leaving a scope *)

Lemma resume_pending (r : outcome unit) :
  match pending r with Some e => Raised e | None => Normal tt end = r.
Proof. by destruct r as [[]|]. Qed.

Lemma with_exit cm block s fr s1 r s2 :
  gen_enter cm s = (Normal fr, s1) →
  block s1 = (r, s2) →
  with_ cm block s = gen_exit cm fr (pending r) s2.
Proof. intros He Hb. unfold with_. rewrite He, Hb. by destruct r. Qed.

Lemma NameScope_exit_spec prefix reset fr thrown s :
  gen_exit (NameScope prefix reset) fr thrown s =
    match namescope s with
    | None => (Raised (AttributeError "namescope"), s)
    | Some _ =>
        if namescope_intact fr s
        then (match thrown with Some e => Raised e | None => Normal tt end,
              {| heap := heap s; tags := tags s; namescope := Some fr.1;
                 devicescope := devicescope s |})
        else (Raised (AssertionError namescope_changed_msg), s)
    end.
Proof.
  cbn [gen_exit NameScope].
  rewrite try_finally_resume, NameScope_finally_spec.
  destruct (namescope s); [|done]. by destruct (namescope_intact fr s).
Qed.

Lemma DeviceScope_exit_spec scope name fr thrown s :
  gen_exit (DeviceScope scope name) fr thrown s =
    match devicescope s with
    | None => (Raised (AttributeError "devicescope"), s)
    | Some _ =>
        if devicescope_intact fr s
        then (match thrown with Some e => Raised e | None => Normal tt end,
              {| heap := heap s; tags := tags s; namescope := namescope s;
                 devicescope := Some fr.1 |})
        else (Raised (AssertionError devicescope_changed_msg), s)
    end.
Proof.
  cbn [gen_exit DeviceScope].
  rewrite try_finally_resume, DeviceScope_finally_spec.
  destruct (devicescope s); [|done]. by destruct (devicescope_intact fr s).
Qed.

Lemma Tags_exit_spec new_tags old_tags thrown s :
  gen_exit (Tags new_tags) old_tags thrown s =
    (match thrown with Some e => Raised e | None => Normal tt end,
     {| heap := heap s; tags := Some old_tags; namescope := namescope s;
        devicescope := devicescope s |}).
Proof.
  cbn [gen_exit Tags]. by rewrite try_finally_resume, Tags_finally_spec.
Qed.

Lemma EmptyDeviceScope_exit_spec old_scope thrown s :
  gen_exit EmptyDeviceScope old_scope thrown s =
    (Normal tt,
     {| heap := heap s; tags := tags s; namescope := namescope s;
        devicescope := Some old_scope |}).
Proof.
  cbn [gen_exit EmptyDeviceScope].
  by rewrite try_finally_resume, EmptyDeviceScope_finally_spec.
Qed.

(** ** NameScope: entry *)

Lemma NameScope_enter_spec prefix reset s :
  NameScope_enter prefix reset s =
    (Normal (current_namescope s, segment prefix),
     {| heap := heap s; tags := tags s;
        namescope := Some (if reset then segment prefix
                           else current_namescope s +:+ segment prefix);
        devicescope := devicescope s |}).
Proof.
  unfold NameScope_enter, CurrentNameScope, current_namescope, segment,
    getattr_namescope, setattr_namescope. py_unfold.
  destruct s as [h t [n|] d], reset; reflexivity.
Qed.

Lemma EmptyDeviceScope_enter_spec s :
  EmptyDeviceScope_enter s =
    (Normal (current_devicescope s),
     {| heap := heap s; tags := tags s; namescope := namescope s;
        devicescope := Some None |}).
Proof.
  unfold EmptyDeviceScope_enter, CurrentDeviceScope, current_devicescope,
    getattr_devicescope, setattr_devicescope. py_unfold.
  destruct s as [h t n [d|]]; reflexivity.
Qed.

Lemma endswith_unfold s suffix :
  endswith s suffix =
    if bool_decide (s = suffix) then true
    else match s with
         | EmptyString => false
         | String _ s' => endswith s' suffix
         end.
Proof. by destruct s. Qed.

Lemma endswith_refl s : endswith s s = true.
Proof. by rewrite endswith_unfold, bool_decide_eq_true_2. Qed.

Lemma endswith_app s suffix : endswith (s +:+ suffix) suffix = true.
Proof.
  induction s as [|c s IH].
  - apply endswith_refl.
  - rewrite endswith_unfold. case_bool_decide; [done|]. apply IH.
Qed.

(** Right after entry the assertion of [NameScope] would pass. *)
Lemma NameScope_enter_intact prefix reset s fr s1 :
  NameScope_enter prefix reset s = (Normal fr, s1) →
  namescope_intact fr s1 = true.
Proof.
  rewrite NameScope_enter_spec. intros [= <- <-].
  unfold namescope_intact, current_namescope. simpl.
  destruct reset; [apply endswith_refl|apply endswith_app].
Qed.

(** A block that leaves [namescope] as it found it is followed by the
    restore of the prefix captured at entry, and its outcome is the outcome
    of the [with] statement. *)
Lemma with_NameScope_unwritten prefix reset block s :
  let s1 := (NameScope_enter prefix reset s).2 in
  namescope (block s1).2 = namescope s1 →
  (with_ (NameScope prefix reset) block s).1 = (block s1).1
  ∧ namescope (with_ (NameScope prefix reset) block s).2
    = Some (current_namescope s).
Proof.
  intros s1 Hblock.
  destruct (NameScope_enter prefix reset s) as [r0 s1'] eqn:Henter.
  pose proof Henter as Hspec. rewrite NameScope_enter_spec in Hspec.
  injection Hspec as <- Hs1. subst s1. cbn [snd] in *.
  destruct (block s1') as [r s2] eqn:Hb. cbn [fst snd] in *.
  rewrite (with_exit (NameScope prefix reset) _ _ _ _ _ _ Henter Hb),
    NameScope_exit_spec.
  assert (Hintact : namescope_intact (current_namescope s, segment prefix) s2
                    = true).
  { pose proof (NameScope_enter_intact _ _ _ _ _ Henter) as Hi.
    unfold namescope_intact, current_namescope in *. by rewrite Hblock. }
  rewrite Hintact, Hblock, <- Hs1. cbn. by rewrite resume_pending.
Qed.

(** C6: with current prefix [P], entering [NameScope] with a non-empty
    prefix [p] installs [P + p + "/"], or [p + "/"] when [reset] is true;
    when the block leaves the prefix as installed (as a nested [NameScope]
    does), leaving the scope puts [P] back.  So [NameScope("a")] and, inside
    it, [NameScope("b")] on a fresh thread give ["a/b/"], then ["a/"] after
    the inner scope and [""] after the outer one. *)
Theorem NameScope_composition :
  ∀ (s : state) (p : string),
    p ≠ "" →
    let P := current_namescope s in
    current_namescope (gen_enter (NameScope (Some p) false) s).2
      = P +:+ p +:+ "/"
    ∧ current_namescope (gen_enter (NameScope (Some p) true) s).2 = p +:+ "/"
    ∧ (∀ reset block,
         let s1 := (gen_enter (NameScope (Some p) reset) s).2 in
         namescope (block s1).2 = namescope s1 →
         namescope (with_ (NameScope (Some p) reset) block s).2 = Some P)
    ∧ (∀ h block,
         let s0 := fresh_thread h in
         let s1 := (gen_enter (NameScope (Some "a") false) s0).2 in
         let s2 := (gen_enter (NameScope (Some "b") false) s1).2 in
         current_namescope s1 = "a/"
         ∧ current_namescope s2 = "a/b/"
         ∧ (namescope (block s2).2 = namescope s2 →
            namescope (with_ (NameScope (Some "b") false) block s1).2
              = Some "a/"
            ∧ namescope (with_ (NameScope (Some "a") false)
                           (with_ (NameScope (Some "b") false) block) s0).2
              = Some "")).
Proof.
  intros s p Hp P. cbn [gen_enter NameScope].
  assert (Hseg : segment (Some p) = p +:+ "/").
  { unfold segment. by rewrite (proj2 (truthy_true (Some p))) by eauto. }
  split_and!.
  - rewrite NameScope_enter_spec. unfold current_namescope at 1. simpl.
    by rewrite Hseg.
  - rewrite NameScope_enter_spec. unfold current_namescope at 1. simpl.
    by rewrite Hseg.
  - intros reset block Hblock.
    by apply with_NameScope_unwritten.
  - intros h block.
    set (s0 := fresh_thread h).
    set (s1 := (NameScope_enter (Some "a") false s0).2).
    split_and!; [done..|].
    intros Hblock.
    assert (Hinner : namescope (with_ (NameScope (Some "b") false) block s1).2
                     = Some "a/").
    { by apply with_NameScope_unwritten. }
    split; [done|].
    by apply (with_NameScope_unwritten (Some "a") false
                (with_ (NameScope (Some "b") false) block) s0).
Qed.

(** ** Restoring on exit *)

Lemma DeviceScope_enter_inv scope name s fr s1 :
  DeviceScope_enter scope name s = (Normal fr, s1) →
  fr.1 = current_devicescope s ∧ devicescope s1 = Some (Some fr.2).
Proof.
  intros Henter.
  assert (Hargs : is_Some scope ∨ truthy name = true).
  { destruct scope; [left; eauto|]. destruct (truthy name) eqn:Hn; [by right|].
    rewrite DeviceScope_enter_raises in Henter by done. discriminate. }
  rewrite (DeviceScope_enter_installs _ _ _ Hargs) in Henter.
  by injection Henter as <- <-.
Qed.

(** C7: for [NameScope], [DeviceScope] and [Tags], when the block ends with
    the guard's attribute holding what it held when the block started, the
    [with] statement ends as the block ended, normally or with the same
    exception, and in both cases the attribute holds the value that was
    current when the guard was entered. *)
Theorem guard_restores_slot :
  ∀ (cm : contextmanager) (k : slot),
    guards cm k →
    ∀ (block : py unit) (s : state) fr (s1 : state) (r : outcome unit)
      (s2 : state),
      gen_enter cm s = (Normal fr, s1) →
      block s1 = (r, s2) →
      unwritten k s1 s2 →
      (with_ cm block s).1 = r ∧ restored k s (with_ cm block s).2.
Proof.
  intros cm k Hg block s fr s1 r s2 Henter Hblock Hk.
  rewrite (with_exit _ _ _ _ _ _ _ Henter Hblock).
  destruct Hg as [prefix reset|scope name|new_tags]; simpl in Hk.
  - rewrite NameScope_exit_spec.
    pose proof (NameScope_enter_intact _ _ _ _ _ Henter) as Hi.
    cbn [gen_enter NameScope] in Henter.
    rewrite NameScope_enter_spec in Henter.
    assert (namescope_intact fr s2 = true) as ->.
    { unfold namescope_intact, current_namescope in *. by rewrite Hk. }
    injection Henter as <- <-. simpl in Hk. rewrite Hk. simpl.
    by rewrite resume_pending.
  - rewrite DeviceScope_exit_spec.
    apply DeviceScope_enter_inv in Henter as [Hfr Hs1].
    rewrite Hk, Hs1.
    assert (devicescope_intact fr s2 = true) as ->.
    { unfold devicescope_intact, current_devicescope. rewrite Hk, Hs1. simpl.
      by apply bool_decide_eq_true_2. }
    simpl. by rewrite resume_pending, Hfr.
  - rewrite Tags_exit_spec. simpl. rewrite resume_pending.
    cbn [gen_enter Tags] in Henter. rewrite Tags_enter_spec in Henter.
    destruct (_merge_tags _ _); [|done]. by injection Henter as <- <-.
Qed.

(** A [with] statement of the guard that owns an attribute is itself a block
    that leaves the attribute as it found it, provided its own block does
    and the attribute exists (as it does inside any scope of that guard):
    the blocks C7 speaks of include the properly nested ones. *)
Lemma nested_guard_unwritten cm k (block : py unit) s :
  guards cm k →
  present k s →
  (∀ fr s1, gen_enter cm s = (Normal fr, s1) → unwritten k s1 (block s1).2) →
  unwritten k s (with_ cm block s).2.
Proof.
  intros Hg Hpresent Hblock. unfold with_.
  destruct (gen_enter cm s) as [[fr|e] s1] eqn:Henter.
  - specialize (Hblock fr s1 eq_refl).
    destruct (block s1) as [r s2] eqn:Hb. cbn [snd] in Hblock.
    assert (Hexit : unwritten k s (gen_exit cm fr (pending r) s2).2).
    { destruct Hg as [prefix reset|scope name|new_tags];
        cbn [unwritten present] in Hblock, Hpresent |- *.
      - rewrite NameScope_exit_spec.
        pose proof (NameScope_enter_intact _ _ _ _ _ Henter) as Hi.
        cbn [gen_enter NameScope] in Henter.
        rewrite NameScope_enter_spec in Henter.
        assert (namescope_intact fr s2 = true) as ->.
        { unfold namescope_intact, current_namescope in *. by rewrite Hblock. }
        injection Henter as <- <-. simpl in Hblock. rewrite Hblock. simpl.
        unfold current_namescope. by destruct (namescope s).
      - rewrite DeviceScope_exit_spec.
        apply DeviceScope_enter_inv in Henter as [Hfr Hs1].
        rewrite Hblock, Hs1.
        assert (devicescope_intact fr s2 = true) as ->.
        { unfold devicescope_intact, current_devicescope.
          rewrite Hblock, Hs1. simpl. by apply bool_decide_eq_true_2. }
        simpl. rewrite Hfr. unfold current_devicescope.
        by destruct (devicescope s).
      - rewrite Tags_exit_spec. simpl.
        cbn [gen_enter Tags] in Henter. rewrite Tags_enter_spec in Henter.
        destruct (_merge_tags _ _); [|done]. injection Henter as <- <-.
        unfold current_tags. by destruct (tags s). }
    by destruct r.
  - cbn [snd]. destruct Hg as [prefix reset|scope name|new_tags];
      cbn [unwritten present] in Hpresent |- *.
    + cbn [gen_enter NameScope] in Henter.
      by rewrite NameScope_enter_spec in Henter.
    + cbn [gen_enter DeviceScope] in Henter.
      destruct scope as [src|]; [|destruct (truthy name) eqn:Hn].
      * by rewrite DeviceScope_enter_installs in Henter by (left; eauto).
      * by rewrite DeviceScope_enter_installs in Henter by (by right).
      * rewrite DeviceScope_enter_raises in Henter by done.
        by injection Henter as <- <-.
    + cbn [gen_enter Tags] in Henter. rewrite Tags_enter_spec in Henter.
      destruct (_merge_tags _ _); [done|]. injection Henter as <- <-. simpl.
      unfold current_tags. by destruct (tags s).
Qed.

(** C9: when the block leaves [namescope] with a value that does not end
    with the segment the guard added, or leaves [devicescope] with [None] or
    with a message that differs from the one the guard installed, the [with]
    statement raises the assertion error of the guard, also when the block
    itself raised, and the state is the one the block left: the attribute
    keeps the value found, and the captured value is not written back. *)
Theorem corrupted_scope_not_restored :
  (∀ prefix reset (block : py unit) (s : state) fr s1 r s2 v,
     gen_enter (NameScope prefix reset) s = (Normal fr, s1) →
     block s1 = (r, s2) →
     namescope s2 = Some v →
     endswith v fr.2 = false →
     with_ (NameScope prefix reset) block s
       = (Raised (AssertionError namescope_changed_msg), s2))
  ∧ (∀ scope name (block : py unit) (s : state) fr s1 r s2 cur,
       gen_enter (DeviceScope scope name) s = (Normal fr, s1) →
       block s1 = (r, s2) →
       devicescope s2 = Some cur →
       (cur = None ∨ ∃ l, cur = Some l ∧ heap s2 !!! l ≠ heap s2 !!! fr.2) →
       with_ (DeviceScope scope name) block s
         = (Raised (AssertionError devicescope_changed_msg), s2)).
Proof.
  split.
  - intros prefix reset block s fr s1 r s2 v Henter Hblock Hv Hends.
    rewrite (with_exit _ _ _ _ _ _ _ Henter Hblock), NameScope_exit_spec, Hv.
    unfold namescope_intact, current_namescope. rewrite Hv. simpl.
    by rewrite Hends.
  - intros scope name block s fr s1 r s2 cur Henter Hblock Hcur Hdiff.
    rewrite (with_exit _ _ _ _ _ _ _ Henter Hblock), DeviceScope_exit_spec, Hcur.
    unfold devicescope_intact, current_devicescope. rewrite Hcur. simpl.
    destruct Hdiff as [->|(l & -> & Hne)]; [done|].
    by rewrite bool_decide_eq_false_2.
Qed.

(** ** The shape of the name prefix *)

Lemma endswith_app_l s t suffix :
  endswith t suffix = true → endswith (s +:+ t) suffix = true.
Proof.
  intros Ht. induction s as [|c s IH]; [done|].
  rewrite endswith_unfold. by case_bool_decide.
Qed.

Lemma append_empty_r (s : string) : s +:+ "" = s.
Proof.
  induction s as [|c s IH]; [done|].
  change (String c s +:+ "") with (String c (s +:+ "")). by rewrite IH.
Qed.

Lemma segment_cases prefix :
  segment prefix = ""
  ∨ endswith (segment prefix) _NAMESCOPE_SEPARATOR = true.
Proof.
  unfold segment. destruct (truthy prefix); [right|by left].
  apply endswith_app.
Qed.

Lemma NameScope_enter_ok prefix reset s :
  namescope_ok s → namescope_ok (NameScope_enter prefix reset s).2.
Proof.
  rewrite NameScope_enter_spec. unfold namescope_ok, current_namescope.
  simpl. intros Hs.
  destruct reset; [apply segment_cases|].
  destruct (segment_cases prefix) as [->|Hseg].
  - by rewrite append_empty_r.
  - right. by apply endswith_app_l.
Qed.

(** Entering a guard keeps the shape of the prefix, and so does leaving it
    when the prefix has that shape as the block ends. *)
Lemma guard_keeps_shape cm :
  guard cm →
  ∀ s, namescope_ok s →
    namescope_ok (gen_enter cm s).2
    ∧ ∀ fr s1, gen_enter cm s = (Normal fr, s1) →
        ∀ thrown s2, namescope_ok s2 →
          namescope_ok (gen_exit cm fr thrown s2).2.
Proof.
  intros [prefix reset|scope name| |new_tags] s Hs.
  - split; [by apply NameScope_enter_ok|].
    intros fr s1 Henter thrown s2 Hs2. rewrite NameScope_exit_spec.
    cbn [gen_enter NameScope] in Henter.
    rewrite NameScope_enter_spec in Henter. injection Henter as <- _.
    destruct (namescope s2); [|done].
    by destruct (namescope_intact _ _).
  - split.
    + cbn [gen_enter DeviceScope].
      destruct scope as [src|]; [|destruct (truthy name) eqn:Hn].
      * by rewrite DeviceScope_enter_installs by (left; eauto).
      * by rewrite DeviceScope_enter_installs by (by right).
      * by rewrite DeviceScope_enter_raises.
    + intros fr s1 _ thrown s2 Hs2. rewrite DeviceScope_exit_spec.
      destruct (devicescope s2); [|done].
      by destruct (devicescope_intact _ _).
  - split.
    + cbn [gen_enter EmptyDeviceScope]. by rewrite EmptyDeviceScope_enter_spec.
    + intros fr s1 _ thrown s2 Hs2. by rewrite EmptyDeviceScope_exit_spec.
  - split.
    + cbn [gen_enter Tags]. rewrite Tags_enter_spec.
      by destruct (_merge_tags _ _).
    + intros fr s1 _ thrown s2 Hs2. by rewrite Tags_exit_spec.
Qed.

(** C8: on a fresh thread the name prefix is empty; and for every guard of
    the module, if the prefix is empty or ends with ["/"] then it is so
    after the guard is entered, after it is left, and after the whole [with]
    statement whenever the block keeps that shape too. *)
Theorem namescope_invariant :
  (∀ h, namescope_ok (fresh_thread h))
  ∧ (∀ cm, guard cm → ∀ s, namescope_ok s → namescope_ok (gen_enter cm s).2)
  ∧ (∀ cm, guard cm → ∀ s fr s1 thrown s2,
       namescope_ok s → gen_enter cm s = (Normal fr, s1) →
       namescope_ok s2 → namescope_ok (gen_exit cm fr thrown s2).2)
  ∧ (∀ cm, guard cm → ∀ (block : py unit) s,
       namescope_ok s →
       (∀ s1, namescope_ok s1 → namescope_ok (block s1).2) →
       namescope_ok (with_ cm block s).2).
Proof.
  split_and!.
  - intros h. by left.
  - intros cm Hg s Hs. by apply guard_keeps_shape.
  - intros cm Hg s fr s1 thrown s2 Hs Henter Hs2.
    destruct (guard_keeps_shape cm Hg s Hs) as [_ Hout]. by eapply Hout.
  - intros cm Hg block s Hs Hblock.
    destruct (guard_keeps_shape cm Hg s Hs) as [Hin Hout].
    unfold with_. destruct (gen_enter cm s) as [[fr|e] s1] eqn:Henter; [|done].
    specialize (Hblock s1 Hin).
    destruct (block s1) as [[[]|e] s2]; by eapply Hout.
Qed.

(** * Further properties *)

(** ** The accessors *)

(** X1: each accessor returns its default on a fresh thread, never raises,
    leaves the heap and the two other attributes alone, and called again
    returns the same value and changes nothing. *)
Theorem accessors_idempotent :
  ∀ s : state,
    (∃ s', CurrentNameScope s = (Normal (current_namescope s), s')
       ∧ CurrentNameScope s' = (Normal (current_namescope s), s')
       ∧ heap s' = heap s ∧ tags s' = tags s ∧ devicescope s' = devicescope s)
    ∧ (∃ s', CurrentDeviceScope s = (Normal (current_devicescope s), s')
         ∧ CurrentDeviceScope s' = (Normal (current_devicescope s), s')
         ∧ heap s' = heap s ∧ tags s' = tags s ∧ namescope s' = namescope s)
    ∧ (∃ s', CurrentTags s = (Normal (current_tags s), s')
         ∧ CurrentTags s' = (Normal (current_tags s), s')
         ∧ heap s' = heap s ∧ namescope s' = namescope s
         ∧ devicescope s' = devicescope s)
    ∧ (∀ h, (CurrentNameScope (fresh_thread h)).1 = Normal ""
            ∧ (CurrentDeviceScope (fresh_thread h)).1 = Normal None
            ∧ (CurrentTags (fresh_thread h)).1 = Normal None).
Proof.
  intros s. split_and!.
  - destruct (CurrentNameScope_spec s) as (s' & H1 & Hn & Ha & Hb & Hc).
    exists s'. split_and!; try done.
    destruct (CurrentNameScope_spec s') as (s'' & Hagain & _).
    rewrite Hagain. unfold current_namescope at 1. rewrite Hn. simpl.
    f_equal. unfold CurrentNameScope, getattr_namescope in Hagain.
    rewrite Hn in Hagain. by injection Hagain.
  - destruct (CurrentDeviceScope_spec s) as (s' & H1 & Hn & Ha & Hb & Hc).
    exists s'. split_and!; try done.
    destruct (CurrentDeviceScope_spec s') as (s'' & Hagain & _).
    rewrite Hagain. unfold current_devicescope at 1. rewrite Hn. simpl.
    f_equal. unfold CurrentDeviceScope, getattr_devicescope in Hagain.
    rewrite Hn in Hagain. by injection Hagain.
  - destruct (CurrentTags_spec s) as (s' & H1 & Hn & Ha & Hb & Hc).
    exists s'. split_and!; try done.
    destruct (CurrentTags_spec s') as (s'' & Hagain & _).
    rewrite Hagain. unfold current_tags at 1. rewrite Hn. simpl.
    f_equal. unfold CurrentTags, getattr_tags in Hagain.
    rewrite Hn in Hagain. by injection Hagain.
  - done.
Qed.

(** ** Guards without an assertion *)

Lemma with_EmptyDeviceScope_state (block : py unit) s :
  with_ EmptyDeviceScope block s =
    (Normal tt,
     put_devicescope (current_devicescope s)
       (block (put_devicescope None s)).2).
Proof.
  unfold with_. cbn [gen_enter EmptyDeviceScope].
  rewrite EmptyDeviceScope_enter_spec.
  change {| heap := heap s; tags := tags s; namescope := namescope s;
            devicescope := Some None |} with (put_devicescope None s).
  destruct (block (put_devicescope None s)) as [[[]|e] s2];
    by rewrite EmptyDeviceScope_exit_spec.
Qed.

(** X2: under [EmptyDeviceScope] the block starts with no device scope, and
    whatever it does to the attribute, the statement ends normally with the
    captured scope current again and everything else as the block left it.
    So inside a [DeviceScope] that was entered, a [with EmptyDeviceScope()]
    statement around any block at all lets the [DeviceScope] end without
    its assertion error and with its own captured scope restored. *)
Theorem EmptyDeviceScope_inside_DeviceScope :
  ∀ scope name (block : py unit) (s : state) fr (s1 : state),
    gen_enter (DeviceScope scope name) s = (Normal fr, s1) →
    current_devicescope (gen_enter EmptyDeviceScope s1).2 = None
    ∧ with_ EmptyDeviceScope block s1
      = (Normal tt,
         put_devicescope (Some fr.2) (block (put_devicescope None s1)).2)
    ∧ with_ (DeviceScope scope name) (with_ EmptyDeviceScope block) s
      = (Normal tt,
         put_devicescope (current_devicescope s)
           (block (put_devicescope None s1)).2).
Proof.
  intros scope name block s fr s1 Henter.
  pose proof Henter as Hinv. apply DeviceScope_enter_inv in Hinv as [Hfr Hs1].
  assert (Hcur : current_devicescope s1 = Some fr.2).
  { unfold current_devicescope. by rewrite Hs1. }
  split_and!.
  - cbn [gen_enter EmptyDeviceScope]. by rewrite EmptyDeviceScope_enter_spec.
  - by rewrite with_EmptyDeviceScope_state, Hcur.
  - rewrite (with_exit _ _ _ _ _ _ _ Henter
               (with_EmptyDeviceScope_state block s1)).
    rewrite DeviceScope_exit_spec, Hcur. cbn [devicescope put_devicescope].
    assert (devicescope_intact fr
              (put_devicescope (Some fr.2)
                 (block (put_devicescope None s1)).2) = true) as ->.
    { unfold devicescope_intact, current_devicescope. simpl.
      by apply bool_decide_eq_true_2. }
    by rewrite Hfr.
Qed.

(** X3: [Tags] has no assertion: once entered, whatever the block does to
    the [tags] attribute, the statement ends as the block ended, with the
    captured tags current again and everything else as the block left it. *)
Theorem Tags_restores_unconditionally :
  ∀ new_tags (block : py unit) (s : state) old_tags (s1 : state),
    gen_enter (Tags new_tags) s = (Normal old_tags, s1) →
    old_tags = current_tags s
    ∧ (with_ (Tags new_tags) block s).1 = (block s1).1
    ∧ (with_ (Tags new_tags) block s).2
      = put_tags (current_tags s) (block s1).2.
Proof.
  intros new_tags block s old_tags s1 Henter.
  destruct (block s1) as [r s2] eqn:Hb.
  rewrite (with_exit _ _ _ _ _ _ _ Henter Hb), Tags_exit_spec.
  cbn [gen_enter Tags] in Henter. rewrite Tags_enter_spec in Henter.
  destruct (_merge_tags _ _); [|done]. injection Henter as <- <-.
  cbn [fst snd]. by rewrite resume_pending.
Qed.

(** ** Tags: edges and nesting order *)

Lemma merge_items_normal items merged m :
  NoDup items.*1 →
  merge_items items merged = Normal m →
  ∀ k v v', (k, v) ∈ items → merged !! k = Some v' → v = v'.
Proof.
  revert merged. induction items as [|[key value] rest IH];
    intros merged Hnd Hm k v v' Hin Hk; [by apply elem_of_nil in Hin|].
  apply NoDup_cons in Hnd as [Hkey Hnd]. simpl in Hm.
  destruct (merged !! key) as [new_value|] eqn:Hmk.
  - case_bool_decide as Hne; [done|].
    apply elem_of_cons in Hin as [[= -> ->]|Hin].
    + rewrite Hmk in Hk. injection Hk as <-.
      destruct (decide (value = new_value)); [done|by destruct Hne].
    + by eapply IH.
  - apply elem_of_cons in Hin as [[= -> ->]|Hin]; [congruence|].
    eapply (IH _ Hnd Hm k v v' Hin).
    rewrite lookup_insert_ne; [done|].
    intros <-. apply Hkey, list_elem_of_fmap. by exists (key, v).
Qed.

(** [_merge_tags] returns exactly when the mappings agree, and then their
    union. *)
Lemma _merge_tags_Normal old_tags new_tags m :
  _merge_tags old_tags new_tags = Normal m
  ↔ agree (default ∅ old_tags) new_tags ∧ m = new_tags ∪ default ∅ old_tags.
Proof.
  split.
  - intros Hm. assert (Hag : agree (default ∅ old_tags) new_tags).
    { destruct old_tags as [old|]; simpl in *.
      - intros k v v' Hold Hnew.
        eapply (merge_items_normal _ _ _ (NoDup_fst_map_to_list old) Hm k);
          [by apply elem_of_map_to_list|done].
      - intros k v v' Hold. by rewrite lookup_empty in Hold. }
    split; [done|]. rewrite _merge_tags_agree in Hm by done. by injection Hm.
  - intros [Hag ->]. by apply _merge_tags_agree.
Qed.

Lemma Tags_enter_Normal new_tags s fr s1 :
  Tags_enter new_tags s = (Normal fr, s1)
  ↔ agree (default ∅ (current_tags s)) new_tags
    ∧ fr = current_tags s
    ∧ s1 = put_tags (Some (new_tags ∪ default ∅ (current_tags s))) s.
Proof.
  rewrite Tags_enter_spec.
  destruct (_merge_tags (current_tags s) new_tags) as [m|e] eqn:Hm.
  - apply _merge_tags_Normal in Hm as [Hag ->]. split.
    + by intros [= <- <-].
    + by intros (_ & -> & ->).
  - split; [done|]. intros (Hag & _).
    apply _merge_tags_agree in Hag. congruence.
Qed.

(** X4: entering [Tags] with a mapping that is part of the tags already in
    force, the empty dictionary or those very tags among them, succeeds and
    leaves the current tags as they are; and with no tags in force,
    entering [Tags(t)] makes [t] the current tags, so that [Tags({})] turns
    "no tags" into the empty mapping. *)
Theorem Tags_enter_edges :
  ∀ (t t' : tagmap) (s : state),
    (current_tags s = Some t → t' ⊆ t →
       (gen_enter (Tags t') s).1 = Normal (Some t)
       ∧ current_tags (gen_enter (Tags t') s).2 = Some t)
    ∧ (current_tags s = None →
         (gen_enter (Tags t) s).1 = Normal None
         ∧ current_tags (gen_enter (Tags t) s).2 = Some t).
Proof.
  intros t t' s. cbn [gen_enter Tags]. rewrite !Tags_enter_spec. split.
  - intros Hcur Hsub. rewrite Hcur, _merge_tags_agree; simpl.
    + by rewrite (map_subseteq_union t' t Hsub).
    + intros k v v' Hk Hk'. eapply lookup_weaken in Hk'; [|done]. congruence.
  - intros Hcur. by rewrite Hcur.
Qed.

Lemma agree_swap (old a b : tagmap) :
  agree old a → agree (a ∪ old) b →
  agree old b ∧ agree (b ∪ old) a ∧ b ∪ (a ∪ old) = a ∪ (b ∪ old).
Proof.
  intros H1 H2.
  assert (Hab : ∀ k x y, a !! k = Some x → b !! k = Some y → x = y).
  { intros k x y Ha Hb. eapply (H2 k); [|done]. by apply lookup_union_Some_l. }
  assert (Hob : agree old b).
  { intros k v v' Hold Hb. destruct (a !! k) as [w|] eqn:Ha.
    - rewrite (H1 k v w Hold Ha). by eapply Hab.
    - eapply (H2 k); [|done]. by rewrite lookup_union_r. }
  split_and!; [done| |].
  - intros k v v' Hbo Ha. apply lookup_union_Some_raw in Hbo as [Hb|[_ Hold]].
    + symmetry. by eapply Hab.
    + by eapply H1.
  - apply map_eq. intros k. rewrite !lookup_union.
    destruct (a !! k) as [x|] eqn:Ha, (b !! k) as [y|] eqn:Hb,
      (old !! k) as [z|] eqn:Hold; simpl; try done;
      by rewrite (Hab k x y Ha Hb).
Qed.

(** X5: the order in which two [Tags] scopes are nested does not matter:
    from any state, entering [Tags(a)] and inside it [Tags(b)] succeeds
    exactly when entering [Tags(b)] and inside it [Tags(a)] does, and the
    tags then in force are the same. *)
Theorem Tags_nesting_order :
  ∀ (a b : tagmap) (s : state) (m : option tagmap),
    (enter_two_tags a b s).1 = Normal m ↔ (enter_two_tags b a s).1 = Normal m.
Proof.
  assert (Hrun : ∀ a b s m,
    (enter_two_tags a b s).1 = Normal m
    ↔ agree (default ∅ (current_tags s)) a
      ∧ agree (a ∪ default ∅ (current_tags s)) b
      ∧ m = Some (b ∪ (a ∪ default ∅ (current_tags s)))).
  { intros a b s m. unfold enter_two_tags. py_unfold.
    destruct (Tags_enter a s) as [[fr|e] s1] eqn:H1.
    - apply Tags_enter_Normal in H1 as (Hag1 & -> & ->).
      destruct (Tags_enter b _) as [[fr2|e] s2] eqn:H2.
      + apply Tags_enter_Normal in H2 as (Hag2 & -> & ->).
        unfold current_tags in Hag2 |- * at 3 4. simpl in *.
        unfold CurrentTags, getattr_tags. simpl. split.
        * by intros [= <-].
        * by intros (_ & _ & ->).
      + simpl. split; [done|]. intros (_ & Hag2 & _).
        assert (∃ x, Tags_enter b
                  (put_tags (Some (a ∪ default ∅ (current_tags s))) s)
                  = (Normal x.1, x.2)) as [x Hx].
        { eexists (_, _). by apply Tags_enter_Normal. }
        congruence.
    - simpl. split; [done|]. intros (Hag1 & _).
      assert (∃ x, Tags_enter a s = (Normal x.1, x.2)) as [x Hx].
      { eexists (_, _). by apply Tags_enter_Normal. }
      congruence. }
  intros a b s m. rewrite !Hrun. split.
  - intros (H1 & H2 & ->). destruct (agree_swap _ _ _ H1 H2) as (? & ? & ->).
    done.
  - intros (H1 & H2 & ->). destruct (agree_swap _ _ _ H1 H2) as (? & ? & ->).
    done.
Qed.

(** ** What the assertions let through *)

(** X6: how a [with NameScope(...)] statement ends is decided by the value
    the block leaves in [namescope].  A value that ends with the segment the
    guard added, the installed prefix or any other, makes the statement end
    as the block ended with the captured prefix restored; any other value
    gives the assertion error and stays; and when the block deleted the
    attribute, reading it raises [AttributeError]. *)
Theorem NameScope_exit_cases :
  ∀ prefix reset (block : py unit) (s : state),
    let s1 := (gen_enter (NameScope prefix reset) s).2 in
    let r := (block s1).1 in
    let s2 := (block s1).2 in
    with_ (NameScope prefix reset) block s =
      match namescope s2 with
      | None => (Raised (AttributeError "namescope"), s2)
      | Some v =>
          if endswith v (segment prefix)
          then (r, put_namescope (current_namescope s) s2)
          else (Raised (AssertionError namescope_changed_msg), s2)
      end.
Proof.
  intros prefix reset block s. cbn zeta. cbn [gen_enter NameScope].
  destruct (NameScope_enter prefix reset s) as [r0 s1] eqn:Henter.
  pose proof Henter as Hspec. rewrite NameScope_enter_spec in Hspec.
  injection Hspec as <- _. cbn [snd].
  destruct (block s1) as [r s2] eqn:Hb. cbn [fst snd].
  rewrite (with_exit (NameScope prefix reset) _ _ _ _ _ _ Henter Hb),
    NameScope_exit_spec.
  unfold namescope_intact, current_namescope at 1.
  destruct (namescope s2) as [v|]; [|done]. simpl.
  destruct (endswith v (segment prefix)); [|done].
  by rewrite resume_pending.
Qed.

(** X7: how a [with DeviceScope(...)] statement that was entered ends is
    decided by what the block leaves in [devicescope].  A reference to a
    message with the content of the installed one (read as the block left
    the heap) makes the statement end as the block ended with the captured
    scope restored; in particular the installed reference itself does,
    also when the block changed that message in place.  [None] or a message
    with other content gives the assertion error, and a deleted attribute
    [AttributeError]. *)
Theorem DeviceScope_exit_cases :
  ∀ scope name (block : py unit) (s : state) fr (s1 : state),
    gen_enter (DeviceScope scope name) s = (Normal fr, s1) →
    let r := (block s1).1 in
    let s2 := (block s1).2 in
    with_ (DeviceScope scope name) block s =
      match devicescope s2 with
      | None => (Raised (AttributeError "devicescope"), s2)
      | Some None => (Raised (AssertionError devicescope_changed_msg), s2)
      | Some (Some l) =>
          if bool_decide (heap s2 !!! l = heap s2 !!! fr.2)
          then (r, put_devicescope (current_devicescope s) s2)
          else (Raised (AssertionError devicescope_changed_msg), s2)
      end
    ∧ (devicescope s2 = Some (Some fr.2) →
       with_ (DeviceScope scope name) block s
         = (r, put_devicescope (current_devicescope s) s2)).
Proof.
  intros scope name block s fr s1 Henter. cbn zeta.
  destruct (block s1) as [r s2] eqn:Hb. cbn [fst snd].
  rewrite (with_exit _ _ _ _ _ _ _ Henter Hb), DeviceScope_exit_spec.
  apply DeviceScope_enter_inv in Henter as [Hfr _].
  unfold devicescope_intact, current_devicescope at 1 3.
  assert (Hcases :
    match devicescope s2 with
    | Some _ =>
        if match default None (devicescope s2) with
           | Some l => bool_decide (heap s2 !!! l = heap s2 !!! fr.2)
           | None => false
           end
        then (match pending r with
              | Some e => Raised e
              | None => Normal ()
              end,
              {| heap := heap s2; tags := tags s2; namescope := namescope s2;
                 devicescope := Some fr.1 |})
        else (Raised (AssertionError devicescope_changed_msg), s2)
    | None => (Raised (AttributeError "devicescope"), s2)
    end =
    match devicescope s2 with
    | Some (Some l) =>
        if bool_decide (heap s2 !!! l = heap s2 !!! fr.2)
        then (r, put_devicescope (current_devicescope s) s2)
        else (Raised (AssertionError devicescope_changed_msg), s2)
    | Some None => (Raised (AssertionError devicescope_changed_msg), s2)
    | None => (Raised (AttributeError "devicescope"), s2)
    end).
  { destruct (devicescope s2) as [[l|]|]; simpl; [|done..].
    destruct (bool_decide _); [|done].
    by rewrite resume_pending, Hfr. }
  split; [exact Hcases|].
  intros Hsame. rewrite Hcases, Hsame.
  by rewrite bool_decide_eq_true_2.
Qed.

(** X8: a [NameScope] whose prefix is [None] or the empty string adds no
    segment: entering leaves the prefix as it is, or clears it when [reset]
    is true; and its assertion is void, so that whatever value the block
    leaves in [namescope], the statement ends as the block ended with the
    captured prefix restored. *)
Theorem NameScope_empty_prefix :
  ∀ prefix reset (block : py unit) (s : state),
    prefix = None ∨ prefix = Some "" →
    let s1 := (gen_enter (NameScope prefix reset) s).2 in
    current_namescope s1 = (if reset then "" else current_namescope s)
    ∧ (is_Some (namescope (block s1).2) →
       with_ (NameScope prefix reset) block s
         = ((block s1).1, put_namescope (current_namescope s) (block s1).2)).
Proof.
  intros prefix reset block s Hprefix. cbn zeta.
  assert (Hseg : segment prefix = "").
  { unfold segment. by rewrite (proj2 (truthy_false prefix) Hprefix). }
  split.
  - cbn [gen_enter NameScope]. rewrite NameScope_enter_spec.
    unfold current_namescope at 1. cbn. rewrite Hseg.
    destruct reset; [done|apply append_empty_r].
  - cbn [gen_enter NameScope].
    destruct (NameScope_enter prefix reset s) as [r0 s1] eqn:Henter.
    pose proof Henter as Hspec. rewrite NameScope_enter_spec in Hspec.
    injection Hspec as <- _. cbn [snd] in *.
    destruct (block s1) as [r s2] eqn:Hb. cbn [fst snd] in *.
    intros [v Hv].
    rewrite (with_exit (NameScope prefix reset) _ _ _ _ _ _ Henter Hb),
      NameScope_exit_spec, Hv.
    unfold namescope_intact, current_namescope at 1. rewrite Hv.
    simpl. rewrite Hseg.
    assert (endswith v "" = true) as ->.
    { rewrite <- (append_empty_r v) at 1. apply endswith_app. }
    by rewrite resume_pending.
Qed.

(** ** What [DeviceScope] installs without names *)

(** X9: [DeviceScope(d)] with no node name given (the argument absent or
    empty) installs a message equal to [d] whenever nothing is inherited:
    [d] has its node name set, or there is no enclosing scope, or the
    enclosing scope has no node name.  And [DeviceScope(None, n)] with [n]
    not empty installs a message with node name [n] and every other field
    at its default, whatever the enclosing scope is. *)
Theorem DeviceScope_installs_argument :
  ∀ (s : state) (name : option string),
    (∀ src d,
       name = None ∨ name = Some "" →
       heap s !! src = Some d →
       (is_Some (node_name d)
        ∨ match current_devicescope s with
          | Some old => node_name (heap s !!! old) = None
          | None => True
          end) →
       installed (gen_enter (DeviceScope (Some src) name) s).2 = Some d)
    ∧ (∀ n, name = Some n → n ≠ "" →
         installed (gen_enter (DeviceScope None name) s).2
           = Some {| node_name := Some n; other_fields := inhabitant |}).
Proof.
  intros s name. cbn [gen_enter DeviceScope]. split.
  - intros src d Hname Hd Hno. apply truthy_false in Hname.
    rewrite DeviceScope_enter_installs by (left; eauto).
    unfold installed, current_devicescope. cbn. rewrite lookup_insert_eq.
    f_equal. unfold installed_message, named_message, copied_message.
    rewrite Hname, (lookup_total_other _ _ _ _ Hd).
    unfold inherited_message.
    destruct (current_devicescope s) as [old|]; [|done].
    destruct Hno as [[n Hn]|Hno].
    + rewrite Hn. cbn. by rewrite andb_false_r.
    + destruct (decide (old = fresh (dom (heap s)))) as [->|Hne].
      * rewrite lookup_total_insert_eq.
        by destruct (node_name d).
      * rewrite lookup_total_insert_ne by done. by rewrite Hno.
  - intros n -> Hn.
    assert (Ht : truthy (Some n) = true) by (apply truthy_true; eauto).
    rewrite DeviceScope_enter_installs by (by right).
    unfold installed, current_devicescope. cbn. rewrite lookup_insert_eq.
    f_equal. unfold installed_message, named_message, copied_message.
    rewrite Ht. unfold inherited_message.
    destruct (current_devicescope s) as [old|]; [|done].
    cbn. by rewrite andb_false_r.
Qed.

(** ** Each guard writes its own attribute only *)

(** X10: entering and leaving a guard leaves the two attributes it does not
    own as they are, even unassigned, whether the entry succeeds or fails;
    every message on the heap stays what it is, entering [DeviceScope] only
    adding its new message; and leaving never writes to the heap. *)
Theorem guards_keep_other_attributes :
  ∀ (cm : contextmanager) (k : slot),
    owns cm k →
    ∀ s : state,
      others_kept k s (gen_enter cm s).2
      ∧ heap s ⊆ heap (gen_enter cm s).2
      ∧ ((∀ scope name, cm ≠ DeviceScope scope name) →
         heap (gen_enter cm s).2 = heap s)
      ∧ (∀ fr thrown s2,
           others_kept k s2 (gen_exit cm fr thrown s2).2
           ∧ heap (gen_exit cm fr thrown s2).2 = heap s2).
Proof.
  intros cm k [prefix reset|scope name| |new_tags] s.
  - cbn [gen_enter NameScope]. rewrite NameScope_enter_spec.
    split_and!; try done.
    intros fr thrown s2. rewrite NameScope_exit_spec.
    destruct (namescope s2); [|done]. by destruct (namescope_intact _ _).
  - cbn [gen_enter DeviceScope].
    assert (Hfresh : heap s ⊆ <[fresh (dom (heap s)) := installed_message s scope name]> (heap s)
                     ∧ ∀ d, heap s ⊆ <[fresh (dom (heap s)) := d]> (heap s)).
    { split; [|intros d]; apply insert_subseteq, fresh_None. }
    destruct Hfresh as [Hfresh1 Hfresh2].
    split_and!.
    + destruct scope as [src|]; [|destruct (truthy name) eqn:Hn].
      * by rewrite DeviceScope_enter_installs by (left; eauto).
      * by rewrite DeviceScope_enter_installs by (by right).
      * by rewrite DeviceScope_enter_raises.
    + destruct scope as [src|]; [|destruct (truthy name) eqn:Hn].
      * by rewrite DeviceScope_enter_installs by (left; eauto).
      * by rewrite DeviceScope_enter_installs by (by right).
      * rewrite DeviceScope_enter_raises by done. apply Hfresh2.
    + intros Hcm. by destruct (Hcm scope name).
    + intros fr thrown s2. rewrite DeviceScope_exit_spec.
      destruct (devicescope s2); [|done]. by destruct (devicescope_intact _ _).
  - cbn [gen_enter EmptyDeviceScope]. rewrite EmptyDeviceScope_enter_spec.
    split_and!; try done.
    intros fr thrown s2. by rewrite EmptyDeviceScope_exit_spec.
  - cbn [gen_enter Tags]. rewrite Tags_enter_spec.
    split_and!.
    + by destruct (_merge_tags _ _).
    + by destruct (_merge_tags _ _).
    + by destruct (_merge_tags _ _).
    + intros fr thrown s2. by rewrite Tags_exit_spec.
Qed.

(** ** Any depth of [NameScope] *)

Lemma append_assoc (a b c : string) : (a +:+ b) +:+ c = a +:+ (b +:+ c).
Proof.
  induction a as [|x a IH]; [done|].
  change (String x ((a +:+ b) +:+ c) = String x (a +:+ (b +:+ c))).
  by rewrite IH.
Qed.

Lemma with_NameScope_state prefix (reset : bool) (block : py unit) s :
  let s1 := put_namescope (if reset then segment prefix
                           else current_namescope s +:+ segment prefix) s in
  namescope (block s1).2 = namescope s1 →
  with_ (NameScope prefix reset) block s
    = ((block s1).1, put_namescope (current_namescope s) (block s1).2).
Proof.
  intros s1 Hblock.
  assert (Henter : gen_enter (NameScope prefix reset) s
                   = (Normal (current_namescope s, segment prefix), s1)).
  { cbn [gen_enter NameScope]. by rewrite NameScope_enter_spec. }
  destruct (block s1) as [r s2] eqn:Hb. cbn [fst snd] in *.
  rewrite (with_exit _ _ _ _ _ _ _ Henter Hb), NameScope_exit_spec, Hblock.
  assert (namescope_intact (current_namescope s, segment prefix) s2 = true)
    as ->.
  { pose proof (NameScope_enter_intact _ _ _ _ _ Henter) as Hi.
    unfold namescope_intact, current_namescope in *. by rewrite Hblock. }
  cbn. by rewrite resume_pending.
Qed.

(** X11: [NameScope]s nested to any depth, without [reset], run the block
    under the prefix at entry followed by all their segments in order;
    when the block leaves that prefix in place, the whole statement ends as
    the block ended, with the prefix at entry current again and everything
    else as the block left it. *)
Theorem nested_NameScope_path :
  ∀ (rest : list string) (p : string) (block : py unit) (s : state),
    let inner := put_namescope (current_namescope s +:+ path (p :: rest)) s in
    namescope (block inner).2 = namescope inner →
    nested_NameScope (p :: rest) block s
      = ((block inner).1,
         put_namescope (current_namescope s) (block inner).2).
Proof.
  induction rest as [|q rest IH]; intros p block s inner Hblock.
  - cbn [nested_NameScope]. subst inner. cbn [path] in *.
    rewrite append_empty_r in *. by apply with_NameScope_state.
  - cbn [nested_NameScope].
    set (s1 := put_namescope (current_namescope s +:+ segment (Some p)) s).
    assert (Hinner : put_namescope
                       (current_namescope s1 +:+ path (q :: rest)) s1
                     = inner).
    { subst inner s1. unfold put_namescope, current_namescope. cbn.
      by rewrite append_assoc. }
    pose proof (IH q block s1) as Hrec. cbn zeta in Hrec.
    rewrite Hinner in Hrec. specialize (Hrec Hblock).
    change (nested_NameScope (q :: rest) block)
      with (with_ (NameScope (Some q) false) (nested_NameScope rest block))
      in Hrec.
    rewrite (with_NameScope_state (Some p) false); fold s1.
    + by rewrite Hrec.
    + by rewrite Hrec.
Qed.

(** ** Any depth of [DeviceScope] *)

Lemma enter_DeviceScopes_cons src rest s :
  enter_DeviceScopes (src :: rest) s =
    match DeviceScope_enter (Some src) None s with
    | (Normal _, s1) => enter_DeviceScopes rest s1
    | (Raised e, s1) => (Raised e, s1)
    end.
Proof. reflexivity. Qed.

Lemma last_scope_elem src rest : last_scope src rest ∈ src :: rest.
Proof.
  revert src. induction rest as [|src' rest IH]; intros src; [by left|].
  right. apply IH.
Qed.

(** X12: the node name of an enclosing device scope goes down through any
    depth of nested [DeviceScope]s whose descriptors carry no node name and
    that are given none: the descriptor current in the innermost scope has
    the node name of the outermost one and the other fields of the last
    descriptor passed. *)
Theorem nested_DeviceScope_inherits :
  ∀ (rest : list loc) (src : loc) (s : state) (old : loc)
    (od : DeviceOption) (N : string),
    current_devicescope s = Some old →
    heap s !! old = Some od →
    node_name od = Some N →
    (∀ l, l ∈ src :: rest → ∃ d, heap s !! l = Some d ∧ node_name d = None) →
    (enter_DeviceScopes (src :: rest) s).1 = Normal tt
    ∧ ∃ d' dl,
        installed (enter_DeviceScopes (src :: rest) s).2 = Some d'
        ∧ node_name d' = Some N
        ∧ heap s !! last_scope src rest = Some dl
        ∧ other_fields d' = other_fields dl.
Proof.
  induction rest as [|src' rest IH]; intros src s old od N Hcur Hod HN Hsrcs;
    destruct (Hsrcs src) as (d & Hd & Hnone); try (by left);
    rewrite enter_DeviceScopes_cons,
      DeviceScope_enter_installs by (left; eauto);
    set (l := fresh (dom (heap s)));
    set (msg := installed_message s (Some src) None);
    assert (Hmsg : node_name msg = Some N
                   ∧ other_fields msg = other_fields d) by
      (subst msg; unfold installed_message, inherited_message,
         named_message, copied_message; cbn;
       by rewrite Hcur, (lookup_total_other _ _ _ _ Hd),
         (lookup_total_other _ _ _ _ Hod), HN, Hnone);
    destruct Hmsg as [Hmsg Hother].
  - cbn [enter_DeviceScopes last_scope]. split; [done|].
    exists msg, d. split_and!; try done.
    unfold installed, current_devicescope. cbn. apply lookup_insert_eq.
  - set (s1 := {| heap := <[l := msg]> (heap s); tags := tags s;
                  namescope := namescope s;
                  devicescope := Some (Some l) |}).
    destruct (IH src' s1 l msg N) as (Hok & d' & dl & Hi & Hn' & Hl & Ho).
    + done.
    + apply lookup_insert_eq.
    + done.
    + intros l' Hl'. destruct (Hsrcs l') as (d0 & Hd0 & Hnone0); [by right|].
      exists d0. split; [|done]. cbn.
      rewrite lookup_insert_ne; [done|]. symmetry. by eapply fresh_ne.
    + split; [exact Hok|]. exists d', dl. split_and!; try done.
      cbn [last_scope]. cbn in Hl. rewrite lookup_insert_ne in Hl; [done|].
      intros Heq.
      destruct (Hsrcs (last_scope src' rest)) as (d0 & Hd0 & _).
      { right. apply last_scope_elem. }
      apply (fresh_ne _ _ _ Hd0). by rewrite <- Heq.
Qed.

End scope.

(** * Concrete runs

    The other fields of a message are an integer here, say the device
    identifier. *)

(** C2, the claim as stated (entering fails exactly when neither a descriptor
    nor a node name is supplied) fails at [DeviceScope(None, node_name="")]:
    a node name is supplied, and the call raises the assertion error. *)
Lemma DeviceScope_rejects_empty_node_name :
  (gen_enter (DeviceScope None (Some "")) (fresh_thread (Other := Z) ∅)).1
    = Raised (AssertionError devicescope_null_msg)
  ∧ ¬ ((None : option loc) = None ∧ Some "" = (None : option string)).
Proof. split; [reflexivity|]. intros [_ [=]]. Qed.

(** C3, the claim as stated (a node name given through the [node_name]
    argument is the one installed) fails at [DeviceScope(d, node_name="")]
    inside a scope whose node name is ["node0"], [d] carrying none: the
    descriptor installed has node name ["node0"], not [""]. *)
Lemma DeviceScope_ignores_empty_node_name :
  let s1 := (gen_enter (DeviceScope (Some 2%positive) (Some ""))
               (nested_state 0%Z 9%Z)).2 in
  node_name <$> installed s1 = Some (Some "node0")
  ∧ node_name <$> installed s1 ≠ Some (Some "").
Proof. split; [reflexivity|]. intros [=]. Qed.

(** C3 at work: inside the scope of message 1 (node name ["node0"]),
    [DeviceScope(d)] with [d] message 2, which has no node name, installs a
    descriptor with node name ["node0"]. *)
Lemma DeviceScope_node_name_witness :
  ∃ d', installed (gen_enter (DeviceScope (Some 2%positive) None)
                     (nested_state 0%Z 9%Z)).2 = Some d'
        ∧ node_name d' = Some "node0".
Proof.
  destruct (DeviceScope_node_name (nested_state 0%Z 9%Z) 1%positive
              (mkDeviceOption (Some "node0") 0%Z) "node0"
              (Some 2%positive) None _ _
              eq_refl eq_refl eq_refl eq_refl)
    as (d' & Hd' & _ & _ & Hinherit).
  exists d'. split; [exact Hd'|].
  apply (Hinherit 2%positive (mkDeviceOption None 9%Z));
    [by left|reflexivity..].
Defined.

(** C4 at work: [Tags({"key2": "value2"})] inside
    [Tags({"key1": "value1"})] installs the union of the two, and
    [Tags({"key1": "value2"})] inside it raises the error that names
    [key1], [value1] and [value2]. *)
Lemma Tags_enter_merges_witness :
  (∃ s1, gen_enter (Tags {["key2" := "value2"]})
           (tagged_state (Other := Z) {["key1" := "value1"]})
         = (Normal (Some {["key1" := "value1"]}), s1)
       ∧ tags s1
         = Some (Some ({["key2" := "value2"]} ∪ {["key1" := "value1"]})))
  ∧ (∃ s1, gen_enter (Tags {["key1" := "value2"]})
             (tagged_state (Other := Z) {["key1" := "value1"]})
           = (Raised (ValueError
                "Tags conflict detected: key key1 hasold value value1, then gets a new value value2"),
              s1)).
Proof.
  split.
  - destruct (proj1 (Tags_enter_merges {["key2" := "value2"]}
                       (tagged_state (Other := Z) {["key1" := "value1"]})))
      as (s1 & Henter & Htags & _).
    + compute_done.
    + exists s1. split; [exact Henter|exact Htags].
  - destruct (proj2 (Tags_enter_merges {["key1" := "value2"]}
                       (tagged_state (Other := Z) {["key1" := "value1"]})))
      as (k & v & v' & s1 & (Hold & Hnew & _) & Henter).
    + exists "key1", "value1", "value2". split_and!; [reflexivity..|].
      discriminate.
    + change (({["key1" := "value1"]} : tagmap) !! k = Some v) in Hold.
      apply lookup_singleton_Some in Hold as [<- <-].
      apply lookup_singleton_Some in Hnew as [_ <-].
      exists s1. exact Henter.
Defined.

(** C5 at work, on the dictionaries of [testTagsConflict]: the statement
    raises the conflict error and the state is the one before it. *)
Lemma Tags_conflict_leaves_tags_witness :
  with_ (Tags {["key1" := "value2"]}) (raise (Exception "not reached"))
    (tagged_state (Other := Z) {["key1" := "value1"]})
  = (Raised (ValueError (conflict_message "key1" "value1" "value2")),
     tagged_state {["key1" := "value1"]}).
Proof.
  apply (Tags_conflict_leaves_tags {["key1" := "value2"]}
           (tagged_state (Other := Z) {["key1" := "value1"]})
           (ValueError (conflict_message "key1" "value1" "value2"))
           (tagged_state {["key1" := "value1"]})).
  reflexivity.
Defined.

(** C6 at work: [NameScope("b")] under the prefix ["a/"] gives ["a/b/"]. *)
Lemma NameScope_composition_witness :
  current_namescope
    (gen_enter (NameScope (Some "b") false) (named_state (Other := Z) "a/")).2
  = "a/b/".
Proof.
  assert (Hb : "b" ≠ "") by discriminate.
  exact (proj1 (NameScope_composition (named_state (Other := Z) "a/") "b" Hb)).
Defined.

(** C7 at work: a block that raises under [DeviceScope(d)] ends the [with]
    statement with that exception, and the device scope is the one captured,
    [None]. *)
Lemma guard_restores_slot_witness :
  (with_ (DeviceScope (Some 1%positive) None) (raise (Exception "boom"))
     (device_state 9%Z)).1 = Raised (Exception "boom")
  ∧ restored device_slot (device_state 9%Z)
      (with_ (DeviceScope (Some 1%positive) None) (raise (Exception "boom"))
         (device_state 9%Z)).2.
Proof.
  apply (guard_restores_slot (DeviceScope (Some 1%positive) None) device_slot
           (guards_device _ _) (raise (Exception "boom")) (device_state 9%Z)
           _ _ _ _ eq_refl eq_refl).
  reflexivity.
Defined.

(** C8 at work: after [with NameScope("a"): raise ...] on a fresh thread
    the prefix has the shape. *)
Lemma namescope_invariant_witness :
  namescope_ok
    (with_ (NameScope (Some "a") false) (raise (Exception "boom"))
       (fresh_thread (Other := Z) ∅)).2.
Proof.
  apply (proj2 (proj2 (proj2 namescope_invariant))
           (NameScope (Some "a") false) (guard_NameScope _ _)
           (raise (Exception "boom")) (fresh_thread (Other := Z) ∅)).
  - left. reflexivity.
  - intros s1 Hs1. exact Hs1.
Defined.

(** C9 at work: a block that assigns ["b/"] to [namescope] under
    [NameScope("a")] ends in the assertion error, and ["b/"] stays. *)
Lemma corrupted_scope_not_restored_witness :
  with_ (NameScope (Some "a") false) (corrupt_namescope "b/")
    (fresh_thread (Other := Z) ∅)
  = (Raised (AssertionError namescope_changed_msg),
     named_state "b/").
Proof.
  apply (proj1 corrupted_scope_not_restored (Some "a") false
           (corrupt_namescope "b/") (fresh_thread (Other := Z) ∅)
           _ _ _ _ "b/" eq_refl eq_refl eq_refl).
  reflexivity.
Defined.


(** ** The tests of [scope_test.py], run on the model *)

Example testNamescopeBasic :
  (assertEquals CurrentNameScope "";;
   with_ (NameScope (Some "test_scope") false)
     (assertEquals CurrentNameScope "test_scope/");;
   assertEquals CurrentNameScope "") (fresh_thread (Other := Z) ∅)
  = (Normal tt, named_state "").
Proof. reflexivity. Qed.

Example testNamescopeAssertion :
  (assertEquals CurrentNameScope "";;
   try_except_pass
     (with_ (NameScope (Some "test_scope") false)
        (assertEquals CurrentNameScope "test_scope/";;
         raise (Exception "")));;
   assertEquals CurrentNameScope "") (fresh_thread (Other := Z) ∅)
  = (Normal tt, named_state "").
Proof. reflexivity. Qed.

Example testEmptyDevicescopeBasic :
  ((assertEquals CurrentDeviceScope None;;
    with_ (DeviceScope (Some 1%positive) None)
      (assertDeviceEquals 1%positive;;
       with_ EmptyDeviceScope (assertEquals CurrentDeviceScope None);;
       assertDeviceEquals 1%positive);;
    assertEquals CurrentDeviceScope None) (device_state 9%Z)).1
  = Normal tt.
Proof. reflexivity. Qed.

Example testDevicescopeAssertion :
  ((assertEquals CurrentDeviceScope None;;
    try_except_pass
      (with_ (DeviceScope (Some 1%positive) None)
         (assertDeviceEquals 1%positive;; raise (Exception "")));;
    assertEquals CurrentDeviceScope None) (device_state 9%Z)).1
  = Normal tt.
Proof. reflexivity. Qed.

Example testTags :
  ((assertEquals CurrentTags None;;
    with_ (Tags {["key1" := "value1"]})
      (assertEquals CurrentTags (Some {["key1" := "value1"]});;
       with_ (Tags {["key2" := "value2"]})
         (assertEquals CurrentTags
            (Some ({["key1" := "value1"]} ∪ {["key2" := "value2"]}));;
          with_ (Tags {["key3" := "value3"]})
            (assertEquals CurrentTags
               (Some ({["key1" := "value1"]} ∪ {["key2" := "value2"]}
                      ∪ {["key3" := "value3"]}))));;
       assertEquals CurrentTags (Some {["key1" := "value1"]}));;
    assertEquals CurrentTags None) (fresh_thread (Other := Z) ∅)).1
  = Normal tt.
Proof. vm_compute. reflexivity. Qed.

Example testTagsConflict :
  with_ (Tags {["key1" := "value1"]})
    (with_ (Tags {["key1" := "value2"]}) (mret tt))
    (fresh_thread (Other := Z) ∅)
  = (Raised (ValueError
       "Tags conflict detected: key key1 hasold value value1, then gets a new value value2"),
     {| heap := ∅; tags := Some None; namescope := None;
        devicescope := None |}).
Proof. reflexivity. Qed.

(** The run behind C1: [with EmptyDeviceScope(): raise Exception("boom")]
    ends normally, while the same block under [NameScope], [DeviceScope]
    and [Tags] lets the exception through. *)
Example EmptyDeviceScope_drops_boom :
  with_ EmptyDeviceScope (raise (Exception "boom"))
    (fresh_thread (Other := Z) ∅)
  = (Normal tt,
     {| heap := ∅; tags := None; namescope := None;
        devicescope := Some None |}).
Proof. reflexivity. Qed.

Example siblings_raise_boom :
  (with_ (NameScope (Some "a") false) (raise (Exception "boom"))
     (fresh_thread (Other := Z) ∅)).1 = Raised (Exception "boom")
  ∧ (with_ (DeviceScope (Some 1%positive) None) (raise (Exception "boom"))
       (device_state 9%Z)).1 = Raised (Exception "boom")
  ∧ (with_ (Tags {["key1" := "value1"]}) (raise (Exception "boom"))
       (fresh_thread (Other := Z) ∅)).1 = Raised (Exception "boom").
Proof. split_and!; reflexivity. Qed.

(** ** Runs of the further properties *)

(** X2 at work: under [DeviceScope(d)], a [with EmptyDeviceScope()] block
    that assigns another reference to the attribute still lets the outer
    statement end normally, with no device scope afterwards. *)
Lemma EmptyDeviceScope_inside_DeviceScope_witness :
  (with_ (DeviceScope (Some 1%positive) None)
     (with_ EmptyDeviceScope (corrupt_devicescope (Some 1%positive)))
     (device_state 9%Z)).1 = Normal tt
  ∧ current_devicescope
      (with_ (DeviceScope (Some 1%positive) None)
         (with_ EmptyDeviceScope (corrupt_devicescope (Some 1%positive)))
         (device_state 9%Z)).2 = None.
Proof.
  destruct (EmptyDeviceScope_inside_DeviceScope (Some 1%positive) None
              (corrupt_devicescope (Some 1%positive)) (device_state 9%Z)
              _ _ eq_refl) as (_ & _ & Hwith).
  rewrite Hwith. split; reflexivity.
Defined.

(** X3 at work: a block that assigns [None] to [tags] under
    [Tags({"key2": "value2"})] and raises; the exception comes out and the
    enclosing tags are current again. *)
Lemma Tags_restores_unconditionally_witness :
  with_ (Tags {["key2" := "value2"]})
    (corrupt_tags None;; raise (Exception "boom"))
    (tagged_state (Other := Z) {["key1" := "value1"]})
  = (Raised (Exception "boom"), tagged_state {["key1" := "value1"]}).
Proof.
  assert (Henter :
    gen_enter (Tags {["key2" := "value2"]})
      (tagged_state (Other := Z) {["key1" := "value1"]})
    = (Normal (Some {["key1" := "value1"]}),
       tagged_state ({["key2" := "value2"]} ∪ {["key1" := "value1"]})))
    by (vm_compute; reflexivity).
  destruct (Tags_restores_unconditionally {["key2" := "value2"]}
              (corrupt_tags None;; raise (Exception "boom"))
              (tagged_state (Other := Z) {["key1" := "value1"]})
              _ _ Henter) as (_ & Hr & Hs).
  apply injective_projections; [exact Hr|exact Hs].
Defined.

(** X4 at work: [Tags({})] inside [Tags({"key1": "value1"})]. *)
Lemma Tags_enter_edges_witness :
  current_tags
    (gen_enter (Tags ∅) (tagged_state (Other := Z) {["key1" := "value1"]})).2
  = Some {["key1" := "value1"]}.
Proof.
  apply (proj1 (Tags_enter_edges {["key1" := "value1"]} ∅
                  (tagged_state (Other := Z) {["key1" := "value1"]}))).
  - reflexivity.
  - apply map_empty_subseteq.
Defined.

(** X7 at work: a block that sets the node name of the current message in
    place is not noticed by [DeviceScope]. *)
Lemma DeviceScope_exit_cases_witness :
  (with_ (DeviceScope (Some 1%positive) None) (rename_current_device "x")
     (device_state 9%Z)).1 = Normal tt
  ∧ current_devicescope
      (with_ (DeviceScope (Some 1%positive) None) (rename_current_device "x")
         (device_state 9%Z)).2 = None.
Proof.
  destruct (DeviceScope_exit_cases (Some 1%positive) None
              (rename_current_device "x") (device_state 9%Z) _ _ eq_refl)
    as [_ Hsame].
  rewrite Hsame; [split; reflexivity|reflexivity].
Defined.

(** X8 at work: [NameScope(None)] around a block that assigns ["x"] to
    [namescope] restores the prefix ["a/"]. *)
Lemma NameScope_empty_prefix_witness :
  with_ (NameScope None false) (corrupt_namescope "x")
    (named_state (Other := Z) "a/")
  = (Normal tt, named_state "a/").
Proof.
  apply (proj2 (NameScope_empty_prefix None false (corrupt_namescope "x")
                  (named_state (Other := Z) "a/") (or_introl eq_refl))).
  exists "x". reflexivity.
Defined.

(** X9 at work: [DeviceScope(d)] on a thread in no device scope installs a
    message equal to [d], as [testDevicescopeBasic] checks. *)
Lemma DeviceScope_installs_argument_witness :
  installed (gen_enter (DeviceScope (Some 1%positive) None)
               (device_state 9%Z)).2
  = Some (mkDeviceOption None 9%Z).
Proof.
  apply (proj1 (DeviceScope_installs_argument (device_state 9%Z) None)
           1%positive (mkDeviceOption None 9%Z)
           (or_introl eq_refl) eq_refl).
  right. exact I.
Defined.

(** X10 at work: entering [NameScope("a")] on a fresh thread leaves [tags]
    and [devicescope] unassigned. *)
Lemma guards_keep_other_attributes_witness :
  tags (gen_enter (NameScope (Some "a") false)
          (fresh_thread (Other := Z) ∅)).2 = None
  ∧ devicescope (gen_enter (NameScope (Some "a") false)
                   (fresh_thread (Other := Z) ∅)).2 = None.
Proof.
  exact (proj1 (guards_keep_other_attributes (NameScope (Some "a") false)
                  name_slot (owns_name _ _) (fresh_thread (Other := Z) ∅))).
Defined.

(** X11 at work: three scopes deep on a fresh thread, a block that raises
    runs under ["a/b/c/"], and the prefix is empty again afterwards. *)
Lemma nested_NameScope_path_witness :
  nested_NameScope ["a"; "b"; "c"]
    (assertEquals CurrentNameScope "a/b/c/";; raise (Exception "boom"))
    (fresh_thread (Other := Z) ∅)
  = (Raised (Exception "boom"), named_state "").
Proof.
  rewrite (nested_NameScope_path ["b"; "c"] "a"
             (assertEquals CurrentNameScope "a/b/c/";;
              raise (Exception "boom"))
             (fresh_thread (Other := Z) ∅)) by reflexivity.
  reflexivity.
Defined.

(** X12 at work: inside the scope of message 1 (node name ["node0"]),
    [DeviceScope] of message 2 and inside it again of message 2 gives a
    current descriptor with node name ["node0"]. *)
Lemma nested_DeviceScope_inherits_witness :
  ∃ d', installed (enter_DeviceScopes [2%positive; 2%positive]
                     (nested_state 0%Z 9%Z)).2 = Some d'
        ∧ node_name d' = Some "node0".
Proof.
  destruct (nested_DeviceScope_inherits [2%positive] 2%positive
              (nested_state 0%Z 9%Z) 1%positive
              (mkDeviceOption (Some "node0") 0%Z) "node0"
              eq_refl eq_refl eq_refl)
    as (_ & d' & dl & Hd' & Hn & _).
  - intros l Hl. exists (mkDeviceOption None 9%Z).
    assert (l = 2%positive) as ->.
    { apply elem_of_cons in Hl as [->|Hl]; [done|].
      by apply list_elem_of_singleton in Hl. }
    split; reflexivity.
  - exists d'. split; [exact Hd'|exact Hn].
Defined.
